(** * TNO occultations: the diffraction-intensity engine of [diffraction_eqs.py]

    A shallow embedding of [lommel_u], [occultation_intensity] and the
    look-up-table loop of the [__main__] block, with the properties of the
    written specification stated and proved over it.

    ** Numbers

    The program computes on IEEE doubles.  The embedding keeps their range
    and leaves out their rounding: a finite double is a real number of [R],
    an operation whose exact result lies beyond the largest double
    overflows, and the non-finite results, infinities and NaN, are separate
    values of [float].  Arguments carry their dynamic Python type, because
    two operations tell a Python [float] from a numpy scalar at the edge of
    the domain: [x / y] raises [ZeroDivisionError] on Python floats and
    returns [nan] or [inf] on [numpy.float64], and [x ** m] raises
    [OverflowError] on a Python float where numpy returns [inf]. *)

From stdpp Require Import base list strings.
From Stdlib Require Import Reals Lra Lia ZArith.

Open Scope R_scope.

(** ** Values, exceptions, results *)

(** An idealised double: a finite real, a signed infinity, or NaN. *)
Inductive float : Type :=
  | Fin (v : R)
  | Inf (negative : bool)
  | NaN.

(** A finite scalar argument with its dynamic type: a Python [float] (an
    [int] within the double range behaves alike), or a [numpy.float64] such
    as the elements of [np.linspace]. *)
Inductive scalar : Type :=
  | Py (v : R)
  | Np (v : R).

Definition val (s : scalar) : R :=
  match s with Py v => v | Np v => v end.

Inductive exn : Type :=
  | ValueError
  | ZeroDivisionError
  | IndexError
  | OverflowError.

Inductive result (A : Type) : Type :=
  | Ok (a : A)
  | Raise (e : exn).
Arguments Ok {A} a.
Arguments Raise {A} e.

Definition bind {A B : Type} (m : result A) (f : A -> result B) : result B :=
  match m with
  | Ok a => f a
  | Raise e => Raise e
  end.

Notation "'do' x <- m ; k" := (bind m (fun x => k))
  (at level 10, x name, m at level 100, k at level 200).

(** ** Arithmetic of idealised doubles

    First the exact results, then the range check that turns them into the
    results of numpy's and Python's operations. *)

Definition Rneg (v : R) : bool := if Rlt_dec v 0 then true else false.

(** [a + b] *)
Definition fadd (a b : float) : float :=
  match a, b with
  | NaN, _ | _, NaN => NaN
  | Fin u, Fin v => Fin (u + v)
  | Fin _, Inf s => Inf s
  | Inf s, Fin _ => Inf s
  | Inf s, Inf t => if Bool.eqb s t then Inf s else NaN
  end.

(** [a * b] *)
Definition fmul (a b : float) : float :=
  match a, b with
  | NaN, _ | _, NaN => NaN
  | Fin u, Fin v => Fin (u * v)
  | Fin u, Inf s => if Req_dec_T u 0 then NaN else Inf (xorb (Rneg u) s)
  | Inf s, Fin v => if Req_dec_T v 0 then NaN else Inf (xorb s (Rneg v))
  | Inf s, Inf t => Inf (xorb s t)
  end.

(** [u / v] before the range check: [0/0] is NaN and [u/0] is an infinity
    with the sign of [u]. *)
Definition fdiv (u v : R) : float :=
  if Req_dec_T v 0 then
    if Req_dec_T u 0 then NaN else Inf (Rneg u)
  else Fin (u / v).

(** [a ** m] for an integer exponent [m >= 0]: [pow(a, 0)] is 1 for every
    [a], NaN included. *)
Definition fpow (a : float) (m : nat) : float :=
  match m with
  | O => Fin 1
  | S _ =>
      match a with
      | Fin v => Fin (v ^ m)
      | Inf s => Inf (s && Nat.odd m)
      | NaN => NaN
      end
  end.

(** The largest finite double, [2^1024 - 2^971]. *)
Definition double_max : R := IZR (2 ^ 1024 - 2 ^ 971).

(** The range check: a finite value beyond [double_max] becomes the
    infinity of its sign. *)
Definition clip (a : float) : float :=
  match a with
  | Fin v => if Rlt_dec double_max (Rabs v) then Inf (Rneg v) else Fin v
  | _ => a
  end.

(** Addition, multiplication and division never raise, neither on numpy
    scalars nor on Python floats: they overflow to infinity. *)
Definition np_add (a b : float) : float := clip (fadd a b).
Definition np_mul (a b : float) : float := clip (fmul a b).
Definition np_div (u v : R) : float := clip (fdiv u v).

(** [a ** m] on a numpy scalar *)
Definition np_pow (a : float) (m : nat) : float := clip (fpow a m).

(** [a ** m] on a Python float: a finite result out of range raises. *)
Definition py_pow (a : float) (m : nat) : result float :=
  match fpow a m with
  | Fin v => if Rlt_dec double_max (Rabs v) then Raise OverflowError else Ok (Fin v)
  | p => Ok p
  end.

(** [a ** m], by the dynamic type of [a] *)
Definition power (python : bool) (a : float) (m : nat) : result float :=
  if python then py_pow a m else Ok (np_pow a m).

(** [np.sin], [np.cos]: NaN at an infinity *)
Definition np_sin (a : float) : float :=
  match a with Fin v => Fin (sin v) | _ => NaN end.
Definition np_cos (a : float) : float :=
  match a with Fin v => Fin (cos v) | _ => NaN end.

(** [x / y] on scalar arguments.  Two Python floats with a zero divisor
    raise; as soon as one operand is a numpy scalar the division is numpy's. *)
Definition truediv (x y : scalar) : result float :=
  match x, y with
  | Py u, Py v => if Req_dec_T v 0 then Raise ZeroDivisionError else Ok (np_div u v)
  | _, _ => Ok (np_div (val x) (val y))
  end.

(** [range(n)] *)
Definition range (n : nat) : list nat := seq 0 n.

(** [np.linspace(start, stop, num)] with its default [endpoint=True]: a
    negative [num] raises [ValueError]; otherwise sample [i] is
    [i * step + start] with [step = (stop - start) / (num - 1)], one sample
    [start] when [num = 1], and the last sample is overwritten with [stop]
    when [num > 1].  The samples are [numpy.float64]. *)
Definition linspace (start stop : R) (num : Z) : result (list scalar) :=
  if (num <? 0)%Z then Raise ValueError
  else
    let div := (num - 1)%Z in
    let delta := stop - start in
    let step := if (0 <? div)%Z then delta / IZR div else delta in
    let y := map (fun i => INR i * step + start) (range (Z.to_nat num)) in
    let y := if (1 <? num)%Z then <[Z.to_nat div := stop]> y else y in
    Ok (map Np y).

(** ** A Bessel function to instantiate [jn] with

    Bessel's integral, [J_n(x) = 1/pi * int_0^pi cos(n*tau - x*sin tau) dtau],
    defines the function that [scipy.special.jn] approximates.  It closes the
    statements that are made about one concrete run of the program. *)

Definition bessel_integrand (n : nat) (x : R) : R -> R :=
  fun tau => cos (INR n * tau - x * sin tau).

Definition bessel_integrable (n : nat) (x : R)
  : Riemann_integrable (bessel_integrand n x) 0 PI.
Proof.
  apply continuity_implies_RiemannInt.
  - left; apply PI_RGT_0.
  - intros tau _. unfold bessel_integrand. reg.
Defined.

Definition bessel_J (n : nat) (x : R) : R :=
  / PI * RiemannInt (bessel_integrable n x).

(** A row [[r, rho, intensity]] of [lut_array]. *)
Abbreviation row := (float * float * float)%type.

Definition is_np (s : scalar) : bool :=
  match s with Np _ => true | Py _ => false end.

(** Both operands are Python floats, and so is the result of [x / y]. *)
Definition both_py (x y : scalar) : bool := negb (is_np x) && negb (is_np y).

(** ** The scene of [occultation_animation.py]

    The script draws Earth, a star and the occulting body on one set of axes
    and redraws the parts that depend on two sliders in [update].  The
    artists are kept as matplotlib keeps them, in the lists [ax.lines],
    [ax.texts] and [ax.patches] in order of creation, since [update] finds
    them again by index.  Of each artist the geometry is kept (and the
    label of a text); colours, line styles and font sizes are not.
    [None] stands for an exception, here the [IndexError] of an index past
    the end of a list or the [AttributeError] of a setter the artist does
    not have. *)
Module Animation.

(** [-a] *)
Definition fneg (a : float) : float :=
  match a with
  | Fin v => Fin (- v)
  | Inf s => Inf (negb s)
  | NaN => NaN
  end.

(** [a / v] for a numpy scalar [a] and a finite [v] *)
Definition fdivr (a : float) (v : R) : float :=
  match a with
  | Fin u => fdiv u v
  | Inf s => Inf (xorb s (Rneg v))
  | NaN => NaN
  end.

(** [np.sqrt(v)]: NaN below zero *)
Definition fsqrt (v : R) : float :=
  if Rlt_dec v 0 then NaN else Fin (sqrt v).

Record line : Type := Line { xdata : list float; ydata : list float }.

Record text : Type := Text { position : float * float; label : string }.

Inductive patch : Type :=
  | Circle (center : float * float) (radius : float)
  | Rectangle (xy : float * float) (width height : float).

Record scene : Type :=
  Scene { lines : list line; texts : list text; patches : list patch }.

Definition earth_radius : R := 1 / 2.
Definition TNO_radius : R := 1 / 5.
Definition star_radius : R := 2.
Definition earth_position : R * R := (2, 0).
Definition TNO_initial_position : R * R := (8, 2).
Definition star_position : R * R := (30, 0).

(** The two sliders: [valmin], [valmax], [valinit]. *)
Definition x_slider_range : R * R := (earth_position.1 + earth_radius, 25).
Definition y_slider_range : R * R := (-2, 2).
Definition x_slider_init : R := TNO_initial_position.1.
Definition y_slider_init : R := TNO_initial_position.2.

Definition fresnel_scale_at (x : R) : float :=
  fdivr (fsqrt (x - earth_position.1 - earth_radius)) 2.

Definition projected_star_radius_at (x : R) : R :=
  star_radius * (x - earth_position.1) / (star_position.1 - earth_position.1).

(** The scene after the module-level statements, lines 6 to 99. *)
Definition initial_scene : scene :=
  let ex := earth_position.1 in
  let ey := earth_position.2 in
  let tx := TNO_initial_position.1 in
  let ty := TNO_initial_position.2 in
  let sx := star_position.1 in
  let fresnel_scale := fresnel_scale_at x_slider_init in
  let projected_star_radius := projected_star_radius_at tx in
  {| lines :=
       [ Line [Fin (ex + earth_radius); Fin sx] [Fin ey; Fin star_radius];
         Line [Fin (ex + earth_radius); Fin sx] [Fin ey; Fin (- star_radius)];
         Line [Fin (ex + earth_radius); Fin tx] [Fin (-3); Fin (-3)];
         Line [Fin (ex + earth_radius); Fin (ex + earth_radius)]
              [Fin (-(11 / 4)); Fin (-(13 / 4))];
         Line [Fin tx; Fin tx] [Fin (-(11 / 4)); Fin (-(13 / 4))];
         Line [Fin tx; Fin tx]
              [fadd (fdivr (fneg fresnel_scale) 2) (Fin y_slider_init);
               fadd (fdivr fresnel_scale 2) (Fin y_slider_init)];
         Line [Fin (ex - earth_radius - 1); Fin (ex - earth_radius - 1)]
              [Fin ey; Fin ty];
         Line [Fin (ex - earth_radius - 3 / 4); Fin (ex - earth_radius - 5 / 4)]
              [Fin ey; Fin ey];
         Line [Fin (ex - earth_radius - 3 / 4); Fin (ex - earth_radius - 5 / 4)]
              [Fin ty; Fin ty];
         Line [Fin tx; Fin tx]
              [Fin (- projected_star_radius); Fin projected_star_radius] ];
     texts :=
       [ Text (Fin ex, Fin 4) "Earth";
         Text (Fin tx, Fin 4) "TNO";
         Text (Fin sx, Fin 4) "Star";
         Text (Fin ((ex + earth_radius + tx) / 2), Fin (-(5 / 2))) "$D$";
         Text (Fin tx,
               fadd (fadd (Fin y_slider_init) (fdivr fresnel_scale 2))
                    (Fin (2 / 5))) "$F_s$";
         Text (Fin (ex - earth_radius - 3 / 2), Fin ((ey + ty) / 2)) "$r$";
         Text (Fin tx, Fin (- projected_star_radius - 1 / 2)) "$2R_{star}$" ];
     patches :=
       [ Circle (Fin ex, Fin ey) (Fin earth_radius);
         Circle (Fin sx, Fin star_position.2) (Fin star_radius);
         Circle (Fin tx, Fin ty) (Fin TNO_radius);
         Rectangle (Fin (ex + earth_radius),
                    fadd (fdivr (fneg fresnel_scale) 2) (Fin ty))
                   (Fin (tx - ex - earth_radius)) fresnel_scale;
         Rectangle (Fin (ex + earth_radius), Fin (- TNO_radius + ty))
                   (Fin (tx - ex - earth_radius)) (Fin (TNO_radius * 2)) ] |}.

(** [l[i] = f(l[i])], in place; [None] past the end of [l] or when [f]
    fails. *)
Definition modify {A : Type} (i : nat) (f : A -> option A) (l : list A)
    : option (list A) :=
  a ← l !! i; a' ← f a; Some (<[i := a']> l).

Definition set_xdata (i : nat) (v : list float) (s : scene) : option scene :=
  ls ← modify i (fun l => Some (Line v (ydata l))) (lines s);
  Some (Scene ls (texts s) (patches s)).

Definition set_ydata (i : nat) (v : list float) (s : scene) : option scene :=
  ls ← modify i (fun l => Some (Line (xdata l) v)) (lines s);
  Some (Scene ls (texts s) (patches s)).

Definition set_position (i : nat) (v : float * float) (s : scene) : option scene :=
  ts ← modify i (fun t => Some (Text v (label t))) (texts s);
  Some (Scene (lines s) ts (patches s)).

Definition set_patch (i : nat) (f : patch -> option patch) (s : scene)
    : option scene :=
  ps ← modify i f (patches s);
  Some (Scene (lines s) (texts s) ps).

Definition set_center (v : float * float) (p : patch) : option patch :=
  match p with Circle _ r => Some (Circle v r) | Rectangle _ _ _ => None end.

Definition set_width (v : float) (p : patch) : option patch :=
  match p with Rectangle xy _ h => Some (Rectangle xy v h) | Circle _ _ => None end.

Definition set_height (v : float) (p : patch) : option patch :=
  match p with Rectangle xy w _ => Some (Rectangle xy w v) | Circle _ _ => None end.

Definition set_xy (v : float * float) (p : patch) : option patch :=
  match p with Rectangle _ w h => Some (Rectangle v w h) | Circle _ _ => None end.

(** [update(val)], lines 102 to 131, with the values [x_slider.val] and
    [y_slider.val] it reads as [x] and [y]; [tno] is the third patch of the
    axes. *)
Definition update (x y : R) (s : scene) : option scene :=
  let ex := earth_position.1 in
  let ey := earth_position.2 in
  s ← set_patch 2 (set_center (Fin x, Fin y)) s;
  s ← set_position 1 (Fin x, Fin 4) s;
  s ← set_xdata 2 [Fin (ex + earth_radius); Fin x] s;
  s ← set_xdata 4 [Fin x; Fin x] s;
  let fresnel_scale := fresnel_scale_at x in
  s ← set_position 3 (Fin ((x + ex + earth_radius) / 2), Fin (-(5 / 2))) s;
  s ← set_ydata 6 [Fin y; Fin ey] s;
  s ← set_ydata 8 [Fin y; Fin y] s;
  s ← set_position 5 (Fin (ex - earth_radius - 3 / 2), Fin ((ey + y) / 2)) s;
  s ← set_xdata 5 [Fin x; Fin x] s;
  s ← set_ydata 5 [fadd (fdivr (fneg fresnel_scale) 2) (Fin y);
                   fadd (fdivr fresnel_scale 2) (Fin y)] s;
  s ← set_position 4 (Fin x, fadd (Fin (y + 2 / 5)) (fdivr fresnel_scale 2)) s;
  s ← set_patch 3 (set_width (Fin (x - ex - earth_radius))) s;
  s ← set_patch 3 (set_height fresnel_scale) s;
  s ← set_patch 3 (set_xy (Fin (ex + earth_radius),
                            fadd (fdivr (fneg fresnel_scale) 2) (Fin y))) s;
  s ← set_patch 4 (set_width (Fin (x - ex - earth_radius))) s;
  s ← set_patch 4 (set_xy (Fin (ex + earth_radius), Fin (- TNO_radius + y))) s;
  let projected_star_radius := projected_star_radius_at x in
  s ← set_xdata 9 [Fin x; Fin x] s;
  s ← set_ydata 9 [Fin (- projected_star_radius); Fin projected_star_radius] s;
  s ← set_position 6 (Fin x, Fin (- projected_star_radius - 1 / 2)) s;
  Some s.

End Animation.

Section Diffraction.

(** [scipy.special.jn], the Bessel function of the first kind of integer
    order, is a library routine outside the repository: it is a parameter
    of the development. *)
Variable jn : nat -> R -> R.

(** The routine on a double: NaN at an infinity and at NaN. *)
Definition jn_at (m : nat) (z : float) : float :=
  match z with Fin v => Fin (jn m v) | _ => NaN end.

(** What the Bessel functions satisfy, [|J_m(z)| <= 1]. *)
Definition jn_bounded : Prop := forall (m : nat) (z : R), Rabs (jn m z) <= 1.

(** ** [lommel_u] *)

(** The [k]-th pass of the loop body computes
    [(-1)**k * (x / y)**(n + 2*k) * jn(n + 2*k, np.pi * x * y)]. *)
Definition lommel_term (n : nat) (x y : scalar) (k : nat) : result float :=
  do q <- truediv x y ;
  do p <- power (both_py x y) q (n + 2 * k) ;
  Ok (np_mul (np_mul (Fin ((-1) ^ k)) p)
             (jn_at (n + 2 * k)
                    (np_mul (np_mul (Fin PI) (Fin (val x))) (Fin (val y))))).

(** [for k in ks: sum_result += term] *)
Fixpoint lommel_loop (n : nat) (x y : scalar) (ks : list nat)
    (sum_result : float) : result float :=
  match ks with
  | [] => Ok sum_result
  | k :: ks' =>
      do term <- lommel_term n x y k ;
      lommel_loop n x y ks' (np_add sum_result term)
  end.

(** The order [n] is a non-negative [int], as in every call of the
    repository ([0], [1] and [2]). *)
Definition lommel_u (n : nat) (x y : scalar) : result float :=
  if Rlt_dec (val y) (val x) then Raise ValueError
  else lommel_loop n x y (range 50) (Fin 0).

(** ** [occultation_intensity] *)

(** [s**2] *)
Definition square (s : scalar) : result float :=
  power (negb (is_np s)) (Fin (val s)) 2.

(** [np.pi / 2 * (r**2 + rho**2)] *)
Definition shadow_angle (r rho : scalar) : result float :=
  do r2 <- square r ;
  do rho2 <- square rho ;
  Ok (np_mul (Fin (PI / 2)) (np_add r2 rho2)).

Definition occultation_intensity (r rho : scalar) : result float :=
  if Rle_dec (val rho) (val r) then
    do u1 <- lommel_u 1 rho r ;
    do u2 <- lommel_u 2 rho r ;
    let term1 := np_add (np_add (Fin 1) (np_pow u1 2)) (np_pow u2 2) in
    do a2 <- shadow_angle r rho ;
    let term2 := np_mul (np_mul (Fin (-2)) u1) (np_sin a2) in
    do a3 <- shadow_angle r rho ;
    let term3 := np_mul (np_mul (Fin 2) u2) (np_cos a3) in
    Ok (np_add (np_add term1 term2) term3)
  else
    do u0 <- lommel_u 0 r rho ;
    do u1 <- lommel_u 1 r rho ;
    Ok (np_add (np_pow u0 2) (np_pow u1 2)).

(** ** The look-up table of the [__main__] block *)

(** [lut_array[idx] = v]: numpy raises [IndexError] outside
    [-len <= idx < len] and counts a negative index from the end. *)
Definition setitem (lut_array : list row) (idx : Z) (v : row) : result (list row) :=
  let len := Z.of_nat (length lut_array) in
  if ((0 <=? idx) && (idx <? len))%Z then
    Ok (<[Z.to_nat idx := v]> lut_array)
  else if ((- len <=? idx) && (idx <? 0))%Z then
    Ok (<[Z.to_nat (len + idx) := v]> lut_array)
  else Raise IndexError.

(** [for j, rho in enumerate(rho_points)], the counter of [enumerate]
    threaded as [j]. *)
Fixpoint lut_inner (num_points : Z) (i : nat) (r : scalar) (j : nat)
    (rho_points : list scalar) (lut_array : list row) : result (list row) :=
  match rho_points with
  | [] => Ok lut_array
  | rho :: rho_points' =>
      do v <- occultation_intensity r rho ;
      do lut_array' <- setitem lut_array
                         (Z.of_nat i * num_points + Z.of_nat j)
                         (Fin (val r), Fin (val rho), v) ;
      lut_inner num_points i r (S j) rho_points' lut_array'
  end.

(** [for i, r in enumerate(r_points)] *)
Fixpoint lut_outer (num_points : Z) (i : nat) (r_points rho_points : list scalar)
    (lut_array : list row) : result (list row) :=
  match r_points with
  | [] => Ok lut_array
  | r :: r_points' =>
      do lut_array' <- lut_inner num_points i r 0 rho_points lut_array ;
      lut_outer num_points (S i) r_points' rho_points lut_array'
  end.

(** The table built by lines 59-65, with the literals [400], [20], [0.01]
    and [20] of the source taken as the grid specification
    [num_points], [r_max], [rho_min], [rho_max]. *)
Definition lut_build (num_points : Z) (r_max rho_min rho_max : R)
    : result (list row) :=
  do r_points <- linspace 0 r_max num_points ;
  do rho_points <- linspace rho_min rho_max num_points ;
  let lut_array := replicate (Z.to_nat (num_points ^ 2)) (Fin 0, Fin 0, Fin 0) in
  lut_outer num_points 0 r_points rho_points lut_array.

(** The table of the source itself. *)
Definition main_lut : result (list row) := lut_build 400 20 (1 / 100) 20.

(** ** The series as the specification writes it

    [U_n(x, y) = sum_{k=0}^{K-1} (-1)^k (x/y)^(n+2k) J_{n+2k}(pi x y)] with
    [K = 50], over the reals. *)
Definition series_term (n : nat) (x y : R) (k : nat) : R :=
  (-1) ^ k * (x / y) ^ (n + 2 * k) * jn (n + 2 * k) (PI * x * y).

Definition lommel_series (n : nat) (x y : R) : R :=
  sum_f_R0 (series_term n x y) 49.

(** The uniform grid of [num] points from [start] to [stop]. *)
Definition grid_point (start stop : R) (num : Z) (i : nat) : R :=
  start + INR i * ((stop - start) / IZR (num - 1)).

(** * Properties *)

(** ** The range of doubles *)

Lemma double_max_ge : 6000 <= double_max.
Proof. unfold double_max. apply IZR_le, Z.leb_le. vm_compute. reflexivity. Qed.

Lemma clip_Fin (v : R) : Rabs v <= double_max -> clip (Fin v) = Fin v.
Proof.
  intros Hv. unfold clip.
  destruct (Rlt_dec double_max (Rabs v)); [lra | reflexivity].
Qed.

Lemma clip_overflow (v : R) :
  double_max < Rabs v -> clip (Fin v) = Inf (Rneg v).
Proof.
  intros Hv. unfold clip.
  destruct (Rlt_dec double_max (Rabs v)); [reflexivity | lra].
Qed.

Lemma np_add_Fin (u v : R) :
  Rabs (u + v) <= double_max -> np_add (Fin u) (Fin v) = Fin (u + v).
Proof. apply clip_Fin. Qed.

Lemma np_mul_Fin (u v : R) :
  Rabs (u * v) <= double_max -> np_mul (Fin u) (Fin v) = Fin (u * v).
Proof. apply clip_Fin. Qed.


Lemma fpow_Fin (v : R) (m : nat) : fpow (Fin v) m = Fin (v ^ m).
Proof. destruct m; reflexivity. Qed.

Lemma np_pow_Fin (v : R) (m : nat) :
  Rabs (v ^ m) <= double_max -> np_pow (Fin v) m = Fin (v ^ m).
Proof. intros Hv. unfold np_pow. rewrite fpow_Fin. apply clip_Fin, Hv. Qed.

Lemma power_Fin (python : bool) (v : R) (m : nat) :
  Rabs (v ^ m) <= double_max -> power python (Fin v) m = Ok (Fin (v ^ m)).
Proof.
  intros Hv. destruct python; cbn [power].
  - unfold py_pow. rewrite fpow_Fin.
    destruct (Rlt_dec double_max (Rabs (v ^ m))); [lra | reflexivity].
  - rewrite np_pow_Fin by assumption. reflexivity.
Qed.

Lemma power_overflow (v : R) (m : nat) :
  double_max < Rabs (v ^ m) -> power true (Fin v) m = Raise OverflowError.
Proof.
  intros Hv. cbn [power]. unfold py_pow. rewrite fpow_Fin.
  destruct (Rlt_dec double_max (Rabs (v ^ m))); [reflexivity | lra].
Qed.

Lemma power_np (a : float) (m : nat) : power false a m = Ok (np_pow a m).
Proof. reflexivity. Qed.

(** A power raises only on a Python float, and only out of range. *)
Lemma power_raise (python : bool) (a : float) (m : nat) (e : exn) :
  power python a m = Raise e ->
  e = OverflowError /\ python = true /\
  exists v, a = Fin v /\ double_max < Rabs (v ^ m).
Proof.
  destruct python; cbn [power]; [|discriminate].
  unfold py_pow. destruct (fpow a m) as [w| |] eqn:Hw; try discriminate.
  destruct (Rlt_dec double_max (Rabs w)) as [Hlt|]; [|discriminate].
  intros [= <-]. split; [reflexivity|]. split; [reflexivity|].
  destruct m as [|m]; cbn in Hw.
  - injection Hw as <-. rewrite Rabs_R1 in Hlt.
    pose proof double_max_ge. lra.
  - destruct a as [v| |]; try discriminate. injection Hw as <-.
    exists v. split; [reflexivity | exact Hlt].
Qed.

Lemma Rabs_le_inv (a b : R) : Rabs a <= b -> - b <= a <= b.
Proof.
  intros H. pose proof (Rle_abs a). pose proof (Rle_abs (- a)) as Hn.
  rewrite Rabs_Ropp in Hn. lra.
Qed.

Lemma Rabs_pow_le_1 (q : R) (m : nat) : Rabs q <= 1 -> Rabs (q ^ m) <= 1.
Proof.
  intros Hq. rewrite <- RPow_abs. rewrite <- (pow1 m).
  apply pow_incr. split; [apply Rabs_pos | assumption].
Qed.

Lemma Rabs_pow_gt_1 (q : R) (m : nat) : 1 < Rabs (q ^ m) -> 1 < Rabs q.
Proof.
  intros Hm. destruct (Rle_dec (Rabs q) 1) as [Hq|Hq]; [|lra].
  pose proof (Rabs_pow_le_1 q m Hq). lra.
Qed.

(** ** The division *)

Lemma truediv_Fin (x y : scalar) :
  val y <> 0 -> Rabs (val x / val y) <= double_max ->
  truediv x y = Ok (Fin (val x / val y)).
Proof.
  intros Hy Hq.
  assert (H : np_div (val x) (val y) = Fin (val x / val y)).
  { unfold np_div, fdiv. destruct (Req_dec_T (val y) 0); [contradiction|].
    apply clip_Fin, Hq. }
  destruct x as [u|u], y as [v|v]; cbn [truediv val] in *; rewrite ?H;
    try reflexivity.
  destruct (Req_dec_T v 0); [contradiction | reflexivity].
Qed.

Lemma both_py_is_np (x y : scalar) :
  both_py x y = negb (is_np x || is_np y).
Proof. destruct x, y; reflexivity. Qed.

Lemma truediv_raise (x y : scalar) (e : exn) :
  truediv x y = Raise e ->
  e = ZeroDivisionError /\ val y = 0 /\ both_py x y = true.
Proof.
  destruct x as [u|u], y as [v|v]; cbn [truediv]; try discriminate.
  destruct (Req_dec_T v 0) as [Hv|Hv]; [|discriminate].
  intros [= <-]. cbn. auto.
Qed.

Lemma truediv_py_zero (x y : scalar) :
  both_py x y = true -> val y = 0 -> truediv x y = Raise ZeroDivisionError.
Proof.
  destruct x as [u|u], y as [v|v]; cbn; try discriminate.
  intros _ ->. destruct (Req_dec_T 0 0); [reflexivity | lra].
Qed.

Lemma truediv_Ok (x y : scalar) :
  both_py x y = false \/ val y <> 0 ->
  truediv x y = Ok (np_div (val x) (val y)).
Proof.
  destruct x as [u|u], y as [v|v]; cbn; intros [H|H]; try discriminate;
    try reflexivity.
  destruct (Req_dec_T v 0); [contradiction | reflexivity].
Qed.

(** ** The series loop *)

Lemma lommel_term_value (n : nat) (x y : scalar) (k : nat) :
  val y <> 0 -> Rabs (val x / val y) <= 1 ->
  Rabs (PI * val x) <= double_max -> Rabs (PI * val x * val y) <= double_max ->
  Rabs (series_term n (val x) (val y) k) <= double_max ->
  lommel_term n x y k = Ok (Fin (series_term n (val x) (val y) k)).
Proof.
  intros Hy Hq Hpx Hpxy Ht. pose proof double_max_ge as HM.
  pose proof (Rabs_pow_le_1 _ (n + 2 * k) Hq) as Hp.
  unfold lommel_term.
  rewrite truediv_Fin by (assumption || lra). cbn [bind].
  rewrite power_Fin by lra. cbn [bind].
  rewrite (np_mul_Fin PI), (np_mul_Fin (PI * val x)) by assumption.
  cbn [jn_at]. rewrite (np_mul_Fin ((-1) ^ k)).
  - rewrite np_mul_Fin by exact Ht. reflexivity.
  - rewrite Rabs_mult, pow_1_abs. lra.
Qed.

Lemma series_term_bound (n : nat) (x y : R) (k : nat) :
  jn_bounded -> Rabs (x / y) <= 1 -> Rabs (series_term n x y k) <= 1.
Proof.
  intros HJ Hq. unfold series_term.
  rewrite !Rabs_mult, pow_1_abs.
  pose proof (Rabs_pow_le_1 _ (n + 2 * k) Hq) as Hp.
  pose proof (HJ (n + 2 * k)%nat (PI * x * y)) as Hj.
  pose proof (Rabs_pos ((x / y) ^ (n + 2 * k))).
  pose proof (Rabs_pos (jn (n + 2 * k) (PI * x * y))). nra.
Qed.

Lemma lommel_loop_app (n : nat) (x y : scalar) (ks1 ks2 : list nat) (s : float) :
  lommel_loop n x y (ks1 ++ ks2) s =
  (do s' <- lommel_loop n x y ks1 s ; lommel_loop n x y ks2 s').
Proof.
  revert s. induction ks1 as [|k ks1 IH]; intros s; simpl; [reflexivity|].
  destruct (lommel_term n x y k) as [t|e]; simpl; [apply IH | reflexivity].
Qed.

(** As long as the terms are finite and at most [1] in size, the loop
    returns their sum, accumulated from [0]. *)
Lemma lommel_loop_sum (n : nat) (x y : scalar) (f : nat -> R) :
  (forall k, lommel_term n x y k = Ok (Fin (f k)) /\ Rabs (f k) <= 1) ->
  forall N : nat, INR (S N) <= double_max ->
    lommel_loop n x y (seq 0 (S N)) (Fin 0) = Ok (Fin (sum_f_R0 f N)) /\
    Rabs (sum_f_R0 f N) <= INR (S N).
Proof.
  intros Hf N. induction N as [|N IH]; intros HN.
  - destruct (Hf 0%nat) as [H0 Hb]. cbn [seq lommel_loop sum_f_R0].
    rewrite H0. cbn [bind lommel_loop].
    rewrite np_add_Fin by (rewrite Rplus_0_l; cbn [INR] in HN; lra).
    rewrite Rplus_0_l. cbn [INR]. split; [reflexivity | lra].
  - rewrite S_INR in HN. pose proof (pos_INR (S N)) as HS.
    destruct IH as [IH Hb]; [lra|].
    destruct (Hf (S N)) as [Ht Hbt].
    rewrite seq_S, lommel_loop_app, IH.
    cbn [bind lommel_loop Nat.add sum_f_R0]. rewrite Ht. cbn [bind lommel_loop].
    assert (Hsum : Rabs (sum_f_R0 f N + f (S N)) <= INR (S N) + 1).
    { eapply Rle_trans; [apply Rabs_triang | lra]. }
    rewrite np_add_Fin by lra.
    rewrite (S_INR (S N)). split; [reflexivity | exact Hsum].
Qed.

Lemma INR_50 : INR 50 = 50.
Proof. rewrite INR_IZR_INZ. reflexivity. Qed.

Lemma ratio_bound (x y : R) : 0 <= x <= y -> 0 < y -> Rabs (x / y) <= 1.
Proof.
  intros [Hx Hxy] Hy.
  assert (H0 : 0 <= x / y) by (apply Rmult_le_pos; [lra | left; apply Rinv_0_lt_compat; lra]).
  assert (H1 : x / y <= 1).
  { unfold Rdiv. rewrite <- (Rinv_r y) by lra. apply Rmult_le_compat_r; [|assumption].
    left. apply Rinv_0_lt_compat. lra. }
  rewrite Rabs_pos_eq; assumption.
Qed.

(** Inside the quadrant and the double range, the loop is the series. *)
Lemma lommel_u_series (n : nat) (x y : scalar) :
  jn_bounded -> 0 <= val x <= val y -> 0 < val y ->
  PI * val x * val y <= double_max ->
  lommel_u n x y = Ok (Fin (lommel_series n (val x) (val y))) /\
  Rabs (lommel_series n (val x) (val y)) <= 50.
Proof.
  intros HJ Hxy Hy Hpxy. pose proof double_max_ge as HM.
  pose proof PI_RGT_0 as Hpi0. pose proof PI_4 as Hpi4.
  pose proof (ratio_bound _ _ Hxy Hy) as Hq.
  assert (Hpx0 : 0 <= PI * val x) by nra.
  assert (Hpx : Rabs (PI * val x) <= double_max).
  { rewrite Rabs_pos_eq by assumption.
    destruct (Rle_dec (val y) 1); nra. }
  assert (Hpxy' : Rabs (PI * val x * val y) <= double_max).
  { rewrite Rabs_pos_eq; [assumption | nra]. }
  unfold lommel_u. destruct (Rlt_dec (val y) (val x)) as [Hlt|_]; [lra|].
  unfold lommel_series. rewrite <- INR_50.
  apply (lommel_loop_sum n x y (series_term n (val x) (val y))).
  - intros k. pose proof (series_term_bound n (val x) (val y) k HJ Hq) as Hb.
    split; [|exact Hb]. apply lommel_term_value; (assumption || lra).
  - rewrite INR_IZR_INZ. apply Rle_trans with 6000; [|exact HM].
    apply IZR_le. lia.
Qed.

(** ** The exceptions of [lommel_u] *)

Lemma lommel_term_raise (n : nat) (x y : scalar) (k : nat) (e : exn) :
  lommel_term n x y k = Raise e ->
  both_py x y = true /\
  ((e = ZeroDivisionError /\ val y = 0) \/
   (e = OverflowError /\ val y <> 0 /\ Rabs (val y) < Rabs (val x))).
Proof.
  unfold lommel_term. destruct (truediv x y) as [q|e'] eqn:Hq; cbn [bind].
  - destruct (power (both_py x y) q (n + 2 * k)) as [p|e'] eqn:Hp; cbn [bind];
      [discriminate|].
    intros [= <-].
    apply power_raise in Hp as (-> & Hpy & v & -> & Hv).
    split; [exact Hpy|]. right. split; [reflexivity|].
    destruct (Req_dec_T (val y) 0) as [Hy|Hy].
    { rewrite truediv_py_zero in Hq by assumption. discriminate. }
    split; [exact Hy|].
    rewrite truediv_Ok in Hq by (right; exact Hy). injection Hq as Hq.
    unfold np_div, fdiv in Hq. destruct (Req_dec_T (val y) 0); [contradiction|].
    unfold clip in Hq.
    destruct (Rlt_dec double_max (Rabs (val x / val y))); [discriminate|].
    injection Hq as <-. pose proof double_max_ge.
    assert (H1 : 1 < Rabs (val x / val y))
      by (apply (Rabs_pow_gt_1 _ (n + 2 * k)); lra).
    unfold Rdiv in H1. rewrite Rabs_mult, Rabs_inv in H1.
    assert (Hay : 0 < Rabs (val y)) by (apply Rabs_pos_lt; exact Hy).
    apply (Rmult_lt_compat_r (Rabs (val y))) in H1; [|exact Hay].
    rewrite Rmult_assoc, Rinv_l in H1 by lra. lra.
  - intros [= <-]. apply truediv_raise in Hq as (-> & Hy & Hpy).
    split; [exact Hpy|]. left. auto.
Qed.

Lemma lommel_loop_raise (n : nat) (x y : scalar) (ks : list nat) (s : float)
    (e : exn) :
  lommel_loop n x y ks s = Raise e ->
  exists k, lommel_term n x y k = Raise e.
Proof.
  revert s. induction ks as [|k ks IH]; intros s; cbn [lommel_loop];
    [discriminate|].
  destruct (lommel_term n x y k) as [t|e'] eqn:Ht; cbn [bind].
  - apply IH.
  - intros [= <-]. eauto.
Qed.

Lemma lommel_loop_total (n : nat) (x y : scalar) :
  (forall k, exists t, lommel_term n x y k = Ok t) ->
  forall (ks : list nat) (s : float), exists v, lommel_loop n x y ks s = Ok v.
Proof.
  intros Ht ks. induction ks as [|k ks IH]; intros s; cbn [lommel_loop].
  - eauto.
  - destruct (Ht k) as [t ->]. cbn [bind]. apply IH.
Qed.

(** The only ways out of [lommel_u] by an exception. *)
Lemma lommel_u_raise (n : nat) (x y : scalar) (e : exn) :
  lommel_u n x y = Raise e ->
  (e = ValueError /\ val y < val x) \/
  (val x <= val y /\ both_py x y = true /\
   ((e = ZeroDivisionError /\ val y = 0) \/
    (e = OverflowError /\ val y <> 0 /\ Rabs (val y) < Rabs (val x)))).
Proof.
  unfold lommel_u. destruct (Rlt_dec (val y) (val x)) as [Hlt|Hge].
  - intros [= <-]. left. split; [reflexivity | assumption].
  - intros H. right. split; [lra|].
    apply lommel_loop_raise in H as [k Hk].
    apply (lommel_term_raise n x y k e Hk).
Qed.

Lemma lommel_u_returns (n : nat) (x y : scalar) :
  val x <= val y ->
  is_np x || is_np y = true \/ (val y <> 0 /\ Rabs (val x) <= Rabs (val y)) ->
  exists v, lommel_u n x y = Ok v.
Proof.
  intros Hxy Hok. destruct (lommel_u n x y) as [v|e] eqn:Hu; [eauto|].
  exfalso. apply lommel_u_raise in Hu as [[_ H]|(_ & Hpy & H)]; [lra|].
  rewrite both_py_is_np in Hpy. apply negb_true_iff in Hpy.
  destruct Hok as [Hok|[Hy Hle]]; [congruence|].
  destruct H as [[_ H]|(_ & _ & H)]; [contradiction | lra].
Qed.

(** ** The edge of the domain: [x = 0] and [y = 0] *)

Lemma sum_f_R0_head (f : nat -> R) (N : nat) :
  (forall k, (1 <= k)%nat -> f k = 0) -> sum_f_R0 f N = f 0%nat.
Proof.
  intros Hf. induction N as [|N IH]; cbn [sum_f_R0]; [reflexivity|].
  rewrite IH, (Hf (S N)) by lia. ring.
Qed.

Lemma series_term_x0 (n : nat) (y : R) (k : nat) :
  (1 <= n + 2 * k)%nat -> series_term n 0 y k = 0.
Proof.
  intros Hk. unfold series_term.
  replace (0 / y) with 0 by (unfold Rdiv; ring).
  rewrite pow_ne_zero by lia. ring.
Qed.

Lemma series_term_00 (y : R) : series_term 0 0 y 0 = jn 0 0.
Proof.
  unfold series_term. cbn [Nat.add Nat.mul pow].
  replace (PI * 0 * y) with 0 by ring. ring.
Qed.

(** With [x = 0] nothing can overflow, whatever [y > 0]: only the pass
    [k = 0] of order [0] is not zero. *)
Lemma lommel_u_x0 (n : nat) (x y : scalar) :
  (n = 0%nat -> jn 0 0 = 1) -> val x = 0 -> 0 < val y ->
  lommel_u n x y = Ok (Fin (match n with O => 1 | S _ => 0 end)).
Proof.
  intros HJ Hx Hy. pose proof double_max_ge as HM.
  assert (Hterm : forall k, Rabs (series_term n 0 (val y) k) <= 1).
  { intros k. destruct (Nat.eq_dec (n + 2 * k) 0) as [E|E].
    - assert (n = 0%nat /\ k = 0%nat) as [-> ->] by lia.
      rewrite series_term_00, HJ by reflexivity. rewrite Rabs_R1. lra.
    - rewrite series_term_x0 by lia. rewrite Rabs_R0. lra. }
  assert (Hz : forall a, Rabs (0 * a) <= double_max).
  { intros a. rewrite Rmult_0_l, Rabs_R0. lra. }
  unfold lommel_u. destruct (Rlt_dec (val y) (val x)) as [Hlt|_]; [lra|].
  destruct (lommel_loop_sum n x y (series_term n 0 (val y))) with (N := 49%nat)
    as [Hrun _].
  - intros k. split; [|apply Hterm].
    rewrite <- Hx at 1. apply lommel_term_value.
    + lra.
    + rewrite Hx. unfold Rdiv. rewrite Rmult_0_l, Rabs_R0. lra.
    + rewrite Hx, Rmult_0_r, Rabs_R0. lra.
    + rewrite Hx, Rmult_0_r. apply Hz.
    + rewrite Hx. specialize (Hterm k). lra.
  - rewrite INR_IZR_INZ. apply Rle_trans with 6000; [|exact HM].
    apply IZR_le. lia.
  - change (range 50) with (seq 0 50). rewrite Hrun. do 2 f_equal.
    rewrite sum_f_R0_head by (intros k Hk; apply series_term_x0; lia).
    destruct n as [|n].
    + rewrite series_term_00. apply HJ. reflexivity.
    + apply series_term_x0. lia.
Qed.

Lemma np_add_NaN_r (s : float) : np_add s NaN = NaN.
Proof. destruct s; reflexivity. Qed.

Lemma np_mul_NaN_r (s : float) : np_mul s NaN = NaN.
Proof. destruct s; reflexivity. Qed.

Lemma lommel_loop_NaN (n : nat) (x y : scalar) :
  (forall k, exists t, lommel_term n x y k = Ok t) ->
  forall ks : list nat, lommel_loop n x y ks NaN = Ok NaN.
Proof.
  intros Ht ks. induction ks as [|k ks IH]; cbn [lommel_loop]; [reflexivity|].
  destruct (Ht k) as [t ->]. cbn [bind]. apply IH.
Qed.

Lemma lommel_term_np (n : nat) (x y : scalar) (k : nat) :
  is_np x || is_np y = true -> exists t, lommel_term n x y k = Ok t.
Proof.
  intros Hnp. unfold lommel_term.
  assert (Hpy : both_py x y = false)
    by (rewrite both_py_is_np, Hnp; reflexivity).
  rewrite truediv_Ok by (left; exact Hpy). rewrite Hpy. cbn [bind power]. eauto.
Qed.

(** Numpy zeros: the first pass already adds NaN to the sum. *)
Lemma lommel_u_zero_np (n : nat) (x y : scalar) :
  val x = 0 -> val y = 0 -> is_np x || is_np y = true ->
  lommel_u n x y = Ok NaN.
Proof.
  intros Hx Hy Hnp.
  assert (Hpy : both_py x y = false)
    by (rewrite both_py_is_np, Hnp; reflexivity).
  unfold lommel_u. destruct (Rlt_dec (val y) (val x)) as [Hlt|_]; [lra|].
  change (range 50) with (0 :: 1 :: seq 2 48)%nat.
  cbn [lommel_loop]. unfold lommel_term at 1 2.
  rewrite truediv_Ok by (left; exact Hpy). rewrite Hpy, Hx, Hy.
  unfold np_div, fdiv. destruct (Req_dec_T 0 0) as [_|Hn]; [|lra].
  cbn [clip bind power].
  replace (n + 2 * 1)%nat with (S (S n)) by lia.
  cbn [np_pow fpow clip]. rewrite (np_mul_NaN_r (Fin ((-1) ^ 1))).
  cbn [np_mul fmul clip]. rewrite np_add_NaN_r.
  apply lommel_loop_NaN. intros k. apply lommel_term_np. exact Hnp.
Qed.

(** Python zeros: the first division raises. *)
Lemma lommel_u_zero_py (n : nat) (x y : scalar) :
  val x <= val y -> val y = 0 -> is_np x = false -> is_np y = false ->
  lommel_u n x y = Raise ZeroDivisionError.
Proof.
  intros Hxy Hy Hx' Hy'.
  unfold lommel_u. destruct (Rlt_dec (val y) (val x)) as [Hlt|_]; [lra|].
  change (range 50) with (0 :: seq 1 49)%nat. cbn [lommel_loop].
  unfold lommel_term. rewrite truediv_py_zero; [reflexivity | | exact Hy].
  rewrite both_py_is_np, Hx', Hy'. reflexivity.
Qed.

(** ** [occultation_intensity] *)

Lemma square_Fin (s : scalar) :
  val s ^ 2 <= double_max -> square s = Ok (Fin (val s ^ 2)).
Proof.
  intros Hs. apply power_Fin.
  rewrite Rabs_pos_eq; [assumption | apply pow2_ge_0].
Qed.

Lemma square_np (s : scalar) :
  is_np s = true -> square s = Ok (np_pow (Fin (val s)) 2).
Proof. intros Hs. unfold square. rewrite Hs. reflexivity. Qed.

Lemma square_raise (s : scalar) (e : exn) :
  square s = Raise e ->
  e = OverflowError /\ is_np s = false /\ double_max < val s ^ 2.
Proof.
  intros H. apply power_raise in H as (-> & Hpy & v & [= <-] & Hv).
  apply negb_true_iff in Hpy.
  rewrite Rabs_pos_eq in Hv by apply pow2_ge_0. auto.
Qed.

Lemma square_overflow (s : scalar) :
  is_np s = false -> double_max < val s ^ 2 ->
  square s = Raise OverflowError.
Proof.
  intros Hs Hv. unfold square. rewrite Hs. apply power_overflow.
  rewrite Rabs_pos_eq; [assumption | apply pow2_ge_0].
Qed.

Lemma shadow_angle_Fin (r rho : scalar) :
  PI / 2 * (val r ^ 2 + val rho ^ 2) <= double_max ->
  shadow_angle r rho = Ok (Fin (PI / 2 * (val r ^ 2 + val rho ^ 2))).
Proof.
  intros Ha. pose proof PI2_1 as Hpi.
  pose proof (pow2_ge_0 (val r)) as Hr. pose proof (pow2_ge_0 (val rho)) as Hrho.
  unfold shadow_angle. rewrite !square_Fin by nra. cbn [bind].
  rewrite np_add_Fin by (rewrite Rabs_pos_eq; nra).
  rewrite np_mul_Fin by (rewrite Rabs_pos_eq; nra). reflexivity.
Qed.

(** The value of the outside branch from finite [u1], [u2]. *)
Lemma outside_compute (r rho : scalar) (u1 u2 : R) :
  lommel_u 1 rho r = Ok (Fin u1) -> lommel_u 2 rho r = Ok (Fin u2) ->
  Rabs u1 <= 50 -> Rabs u2 <= 50 ->
  val rho <= val r -> PI / 2 * (val r ^ 2 + val rho ^ 2) <= double_max ->
  occultation_intensity r rho =
  Ok (Fin (1 + u1 ^ 2 + u2 ^ 2
           + -2 * u1 * sin (PI / 2 * (val r ^ 2 + val rho ^ 2))
           + 2 * u2 * cos (PI / 2 * (val r ^ 2 + val rho ^ 2)))).
Proof.
  intros H1 H2 Hu1 Hu2 Hle Ha. pose proof double_max_ge as HM.
  apply Rabs_le_inv in Hu1, Hu2.
  set (a := PI / 2 * (val r ^ 2 + val rho ^ 2)) in *.
  pose proof (SIN_bound a) as Hs. pose proof (COS_bound a) as Hc.
  assert (Hq1 : 0 <= u1 ^ 2 <= 2500) by nra.
  assert (Hq2 : 0 <= u2 ^ 2 <= 2500) by nra.
  assert (Hp1 : -100 <= -2 * u1 * sin a <= 100) by nra.
  assert (Hp2 : -100 <= 2 * u2 * cos a <= 100) by nra.
  unfold occultation_intensity.
  destruct (Rle_dec (val rho) (val r)) as [_|Hn]; [|contradiction].
  rewrite H1, H2, shadow_angle_Fin by exact Ha. cbn [bind np_sin np_cos]. fold a.
  rewrite !np_pow_Fin by (apply Rabs_le; lra).
  rewrite (np_add_Fin 1) by (apply Rabs_le; lra).
  rewrite (np_add_Fin (1 + u1 ^ 2)) by (apply Rabs_le; lra).
  rewrite (np_mul_Fin (-2)), (np_mul_Fin 2) by (apply Rabs_le; lra).
  rewrite !np_mul_Fin by (apply Rabs_le; lra).
  rewrite !np_add_Fin by (apply Rabs_le; lra).
  reflexivity.
Qed.

(** The value of the inside branch from finite [u0], [u1]. *)
Lemma inside_compute (r rho : scalar) (u0 u1 : R) :
  lommel_u 0 r rho = Ok (Fin u0) -> lommel_u 1 r rho = Ok (Fin u1) ->
  Rabs u0 <= 50 -> Rabs u1 <= 50 -> val r < val rho ->
  occultation_intensity r rho = Ok (Fin (u0 ^ 2 + u1 ^ 2)).
Proof.
  intros H0 H1 Hu0 Hu1 Hlt. pose proof double_max_ge as HM.
  apply Rabs_le_inv in Hu0, Hu1.
  assert (Hq0 : 0 <= u0 ^ 2 <= 2500) by nra.
  assert (Hq1 : 0 <= u1 ^ 2 <= 2500) by nra.
  unfold occultation_intensity.
  destruct (Rle_dec (val rho) (val r)) as [Hle|_]; [lra|].
  rewrite H0, H1. cbn [bind].
  rewrite !np_pow_Fin by (apply Rabs_le; lra).
  rewrite np_add_Fin by (apply Rabs_le; lra). reflexivity.
Qed.

Lemma angle_covers_product (r rho : R) :
  0 <= r -> 0 <= rho ->
  PI * rho * r <= PI / 2 * (r ^ 2 + rho ^ 2) /\
  PI / 2 * (r ^ 2 + rho ^ 2) <= PI * (r ^ 2 + rho ^ 2).
Proof.
  intros Hr Hrho. pose proof PI_RGT_0 as Hpi.
  pose proof (pow2_ge_0 (r - rho)) as Hsq.
  pose proof (pow2_ge_0 r). pose proof (pow2_ge_0 rho).
  split; nra.
Qed.

Lemma outside_value (r rho : scalar) :
  jn_bounded -> 0 <= val rho <= val r -> 0 < val r ->
  PI / 2 * (val r ^ 2 + val rho ^ 2) <= double_max ->
  occultation_intensity r rho =
  Ok (Fin (1 + lommel_series 1 (val rho) (val r) ^ 2
             + lommel_series 2 (val rho) (val r) ^ 2
             + -2 * lommel_series 1 (val rho) (val r)
                 * sin (PI / 2 * (val r ^ 2 + val rho ^ 2))
             + 2 * lommel_series 2 (val rho) (val r)
                 * cos (PI / 2 * (val r ^ 2 + val rho ^ 2)))).
Proof.
  intros HJ Hle Hr Ha.
  destruct (angle_covers_product (val r) (val rho)) as [Hprod _]; [lra | lra |].
  destruct (lommel_u_series 1 rho r HJ Hle Hr) as [H1 Hb1]; [lra|].
  destruct (lommel_u_series 2 rho r HJ Hle Hr) as [H2 Hb2]; [lra|].
  apply outside_compute; (assumption || lra).
Qed.

Lemma inside_value (r rho : scalar) :
  jn_bounded -> 0 <= val r < val rho -> PI * val r * val rho <= double_max ->
  occultation_intensity r rho =
  Ok (Fin (lommel_series 0 (val r) (val rho) ^ 2
           + lommel_series 1 (val r) (val rho) ^ 2)).
Proof.
  intros HJ Hlt Hp.
  destruct (lommel_u_series 0 r rho HJ) as [H0 Hb0]; [lra | lra | assumption |].
  destruct (lommel_u_series 1 r rho HJ) as [H1 Hb1]; [lra | lra | assumption |].
  apply inside_compute; (assumption || lra).
Qed.

(** C1 (amended).  For [r >= 0] and [rho > 0] with [pi*(r^2+rho^2)] inside
    the double range, and Bessel values of size at most [1],
    [occultation_intensity(r, rho)] picks its branch by comparing [r] with
    [rho].  When [r >= rho] (equality included) it returns
    [1 + u1^2 + u2^2 - 2*u1*sin(pi/2*(r^2+rho^2)) + 2*u2*cos(pi/2*(r^2+rho^2))]
    with [u1 = lommel_u(1, rho, r)] and [u2 = lommel_u(2, rho, r)]; when
    [r < rho] it returns [u0^2 + u1^2] with [u0 = lommel_u(0, r, rho)] and
    [u1 = lommel_u(1, r, rho)]. *)
Theorem occultation_intensity_branches (r rho : scalar) :
  jn_bounded -> 0 <= val r -> 0 < val rho ->
  PI * (val r ^ 2 + val rho ^ 2) <= double_max ->
  (val rho <= val r ->
   exists u1 u2 : R,
     lommel_u 1 rho r = Ok (Fin u1) /\ lommel_u 2 rho r = Ok (Fin u2) /\
     occultation_intensity r rho =
     Ok (Fin (1 + u1 ^ 2 + u2 ^ 2
              - 2 * u1 * sin (PI / 2 * (val r ^ 2 + val rho ^ 2))
              + 2 * u2 * cos (PI / 2 * (val r ^ 2 + val rho ^ 2))))) /\
  (val r < val rho ->
   exists u0 u1 : R,
     lommel_u 0 r rho = Ok (Fin u0) /\ lommel_u 1 r rho = Ok (Fin u1) /\
     occultation_intensity r rho = Ok (Fin (u0 ^ 2 + u1 ^ 2))).
Proof.
  intros HJ Hr Hrho Ha.
  destruct (angle_covers_product (val r) (val rho)) as [Hprod Hhalf]; [lra | lra |].
  split.
  - intros Hle.
    destruct (lommel_u_series 1 rho r HJ) as [H1 _]; [lra | lra | lra |].
    destruct (lommel_u_series 2 rho r HJ) as [H2 _]; [lra | lra | lra |].
    exists (lommel_series 1 (val rho) (val r)), (lommel_series 2 (val rho) (val r)).
    split; [exact H1|]. split; [exact H2|].
    rewrite outside_value by (assumption || lra). do 2 f_equal. ring.
  - intros Hlt.
    destruct (lommel_u_series 0 r rho HJ) as [H0 _]; [lra | lra | lra |].
    destruct (lommel_u_series 1 r rho HJ) as [H1 _]; [lra | lra | lra |].
    exists (lommel_series 0 (val r) (val rho)), (lommel_series 1 (val r) (val rho)).
    split; [exact H0|]. split; [exact H1|].
    apply inside_value; (assumption || lra).
Qed.


Lemma square_raise_not_value_error (s : scalar) : square s <> Raise ValueError.
Proof. intros H. apply square_raise in H as [H _]. discriminate. Qed.

Lemma shadow_angle_raise (r rho : scalar) (e : exn) :
  shadow_angle r rho = Raise e ->
  e = OverflowError /\
  ((is_np r = false /\ double_max < val r ^ 2) \/
   (is_np rho = false /\ double_max < val rho ^ 2)).
Proof.
  unfold shadow_angle. destruct (square r) as [r2|e'] eqn:Hr; cbn [bind].
  - destruct (square rho) as [rho2|e'] eqn:Hrho; cbn [bind]; [discriminate|].
    intros [= <-]. apply square_raise in Hrho as (-> & H). auto.
  - intros [= <-]. apply square_raise in Hr as (-> & H). auto.
Qed.

(** Whatever the arguments, no [ValueError] leaves [occultation_intensity]:
    the exceptions are those of the two calls of one branch, which respect
    the order of the arguments, and the overflow of a square. *)
Lemma occultation_intensity_raise (r rho : scalar) (e : exn) :
  occultation_intensity r rho = Raise e ->
  (val rho <= val r /\
   (lommel_u 1 rho r = Raise e \/ lommel_u 2 rho r = Raise e \/
    shadow_angle r rho = Raise e)) \/
  (val r < val rho /\
   (lommel_u 0 r rho = Raise e \/ lommel_u 1 r rho = Raise e)).
Proof.
  unfold occultation_intensity.
  destruct (Rle_dec (val rho) (val r)) as [Hle|Hgt].
  - intros H. left. split; [assumption|].
    destruct (lommel_u 1 rho r) as [u1|e1]; cbn [bind] in H; [|left; exact H].
    destruct (lommel_u 2 rho r) as [u2|e2]; cbn [bind] in H;
      [|right; left; exact H].
    right; right.
    destruct (shadow_angle r rho) as [a|ea]; cbn [bind] in H;
      [discriminate | exact H].
  - intros H. right. split; [lra|].
    destruct (lommel_u 0 r rho) as [u0|e0]; cbn [bind] in H; [|left; exact H].
    destruct (lommel_u 1 r rho) as [u1|e1]; cbn [bind] in H;
      [discriminate | right; exact H].
Qed.

(** C4.  For [r >= 0] and [rho > 0] the guard of [lommel_u] is never
    taken from [occultation_intensity]: the outside branch passes
    [(rho, r)] with [rho <= r], the inside branch passes [(r, rho)] with
    [r < rho], and the call does not raise [ValueError]. *)
Theorem occultation_intensity_no_domain_error (r rho : scalar) :
  0 <= val r -> 0 < val rho ->
  (val rho <= val r -> forall n, lommel_u n rho r <> Raise ValueError) /\
  (val r < val rho -> forall n, lommel_u n r rho <> Raise ValueError) /\
  occultation_intensity r rho <> Raise ValueError.
Proof.
  intros Hr Hrho.
  assert (Hout : val rho <= val r -> forall n, lommel_u n rho r <> Raise ValueError).
  { intros Hle n H. apply lommel_u_raise in H as [[_ H]|(_ & _ & [[H _]|[H _]])];
      [lra | discriminate | discriminate]. }
  assert (Hin : val r < val rho -> forall n, lommel_u n r rho <> Raise ValueError).
  { intros Hlt n H. apply lommel_u_raise in H as [[_ H]|(_ & _ & [[H _]|[H _]])];
      [lra | discriminate | discriminate]. }
  split; [exact Hout|]. split; [exact Hin|].
  intros H. apply occultation_intensity_raise in H as [[Hle H]|[Hlt H]].
  - destruct H as [H|[H|H]]; [apply (Hout Hle 1%nat H) | apply (Hout Hle 2%nat H)|].
    apply shadow_angle_raise in H as [H _]. discriminate.
  - destruct H as [H|H]; [apply (Hin Hlt 0%nat H) | apply (Hin Hlt 1%nat H)].
Qed.

(** Inside the double range the intensity is a finite number [>= 0]. *)
Lemma occultation_intensity_value (r rho : scalar) :
  jn_bounded -> 0 <= val r -> 0 < val rho ->
  PI / 2 * (val r ^ 2 + val rho ^ 2) <= double_max ->
  exists v : R, occultation_intensity r rho = Ok (Fin v) /\ 0 <= v.
Proof.
  intros HJ Hr Hrho Ha.
  destruct (angle_covers_product (val r) (val rho)) as [Hprod _]; [lra | lra |].
  destruct (Rle_dec (val rho) (val r)) as [Hle|Hgt].
  - rewrite outside_value by (assumption || lra).
    eexists; split; [reflexivity|].
    set (u1 := lommel_series 1 _ _). set (u2 := lommel_series 2 _ _).
    set (a := PI / 2 * _).
    pose proof (sin2_cos2 a) as Hsc. unfold Rsqr in Hsc.
    pose proof (pow2_ge_0 (u1 - sin a)) as H1.
    pose proof (pow2_ge_0 (u2 + cos a)) as H2. nra.
  - rewrite inside_value by (assumption || lra).
    eexists; split; [reflexivity|].
    pose proof (pow2_ge_0 (lommel_series 0 (val r) (val rho))).
    pose proof (pow2_ge_0 (lommel_series 1 (val r) (val rho))). lra.
Qed.

(** C5 (amended).  For [r >= 0] and [rho > 0] with [pi*(r^2+rho^2)] inside
    the double range, and Bessel values of size at most [1],
    [occultation_intensity(r, rho)] returns a value [>= 0] in exact real
    arithmetic: outside the shadow the value is
    [(u1 - sin a)^2 + (u2 + cos a)^2] with [a = pi/2*(r^2+rho^2)], inside it
    is a sum of two squares. *)
Theorem occultation_intensity_nonneg (r rho : scalar) :
  jn_bounded -> 0 <= val r -> 0 < val rho ->
  PI * (val r ^ 2 + val rho ^ 2) <= double_max ->
  exists v : R, occultation_intensity r rho = Ok (Fin v) /\ 0 <= v.
Proof.
  intros HJ Hr Hrho Ha.
  destruct (angle_covers_product (val r) (val rho)) as [_ Hhalf]; [lra | lra |].
  apply occultation_intensity_value; (assumption || lra).
Qed.



Lemma occultation_intensity_zero_np (r rho : scalar) :
  val r = 0 -> val rho = 0 -> is_np r || is_np rho = true ->
  occultation_intensity r rho = Ok NaN.
Proof.
  intros Hr Hrho Hnp. pose proof double_max_ge as HM.
  unfold occultation_intensity.
  destruct (Rle_dec (val rho) (val r)) as [_|Hn]; [|lra].
  rewrite !lommel_u_zero_np by (assumption || (rewrite orb_comm; assumption)).
  rewrite shadow_angle_Fin
    by (rewrite Hr, Hrho; replace (PI / 2 * (0 ^ 2 + 0 ^ 2)) with 0 by ring; lra).
  reflexivity.
Qed.

(** C10 (amended).  [x = y = 0] passes the guard of [lommel_u]: the call
    raises no [ValueError] and returns no real value, for every order.
    When one of the zeros is a numpy scalar every pass divides [0/0] and the
    result is NaN, which [occultation_intensity(0, 0)] hands on; when both
    are Python numbers the first division raises [ZeroDivisionError], in
    [lommel_u] and in [occultation_intensity] alike. *)
Theorem lommel_u_zero_zero (n : nat) (x y : scalar) :
  val x = 0 -> val y = 0 ->
  lommel_u n x y <> Raise ValueError /\
  (forall v : R, lommel_u n x y <> Ok (Fin v)) /\
  (is_np x || is_np y = true ->
   lommel_u n x y = Ok NaN /\ occultation_intensity x y = Ok NaN) /\
  (is_np x || is_np y = false ->
   lommel_u n x y = Raise ZeroDivisionError /\
   occultation_intensity x y = Raise ZeroDivisionError).
Proof.
  intros Hx Hy.
  assert (Hnp : is_np x || is_np y = true ->
                lommel_u n x y = Ok NaN /\ occultation_intensity x y = Ok NaN).
  { intros Hnp. split; [apply lommel_u_zero_np; assumption|].
    apply occultation_intensity_zero_np; assumption. }
  assert (Hpy : is_np x || is_np y = false ->
                lommel_u n x y = Raise ZeroDivisionError /\
                occultation_intensity x y = Raise ZeroDivisionError).
  { intros Hpy. apply orb_false_elim in Hpy as [Hx' Hy'].
    split; [apply lommel_u_zero_py; (assumption || lra)|].
    unfold occultation_intensity.
    destruct (Rle_dec (val y) (val x)) as [_|Hn]; [|lra].
    rewrite lommel_u_zero_py by (assumption || lra). reflexivity. }
  split; [|split; [|split; [exact Hnp | exact Hpy]]].
  - destruct (is_np x || is_np y) eqn:E.
    + destruct (Hnp eq_refl) as [-> _]. discriminate.
    + destruct (Hpy eq_refl) as [-> _]. discriminate.
  - intros v. destruct (is_np x || is_np y) eqn:E.
    + destruct (Hnp eq_refl) as [-> _]. discriminate.
    + destruct (Hpy eq_refl) as [-> _]. discriminate.
Qed.

(** ** The look-up table *)

Lemma shadow_angle_np (r rho : scalar) :
  is_np r = true -> is_np rho = true -> exists a, shadow_angle r rho = Ok a.
Proof.
  intros Hr Hrho. unfold shadow_angle. rewrite !square_np by assumption.
  cbn [bind]. eauto.
Qed.

(** On numpy scalars nothing raises. *)
Lemma occultation_intensity_np (r rho : scalar) :
  is_np r = true -> is_np rho = true ->
  exists v, occultation_intensity r rho = Ok v.
Proof.
  intros Hr Hrho. unfold occultation_intensity.
  destruct (shadow_angle_np r rho Hr Hrho) as [a Ha].
  destruct (Rle_dec (val rho) (val r)) as [Hle|Hgt].
  - destruct (lommel_u_returns 1 rho r) as [u1 ->];
      [assumption | left; rewrite Hr; apply orb_true_r |].
    destruct (lommel_u_returns 2 rho r) as [u2 ->];
      [assumption | left; rewrite Hr; apply orb_true_r |].
    rewrite Ha. cbn [bind]. eauto.
  - destruct (lommel_u_returns 0 r rho) as [u0 ->];
      [lra | left; rewrite Hr; reflexivity |].
    destruct (lommel_u_returns 1 r rho) as [u1 ->];
      [lra | left; rewrite Hr; reflexivity |].
    cbn [bind]. eauto.
Qed.

Lemma setitem_in_range (lut_array : list row) (idx : nat) (v : row) :
  (idx < length lut_array)%nat ->
  setitem lut_array (Z.of_nat idx) v = Ok (<[idx := v]> lut_array).
Proof.
  intros Hlt. unfold setitem.
  replace ((0 <=? Z.of_nat idx)%Z && (Z.of_nat idx <? Z.of_nat (length lut_array))%Z)
    with true by (symmetry; apply andb_true_iff; split; lia).
  rewrite Nat2Z.id. reflexivity.
Qed.

Lemma linspace_samples (start stop : R) (num : Z) :
  (0 <= num)%Z ->
  exists ys : list R,
    linspace start stop num = Ok (map Np ys) /\
    length ys = Z.to_nat num /\
    (num = 1%Z -> ys = [start]) /\
    ((1 < num)%Z -> forall i : nat, (i < Z.to_nat num)%nat ->
       ys !! i = Some (grid_point start stop num i)).
Proof.
  intros Hnum. unfold linspace.
  replace (num <? 0)%Z with false by (symmetry; apply Z.ltb_ge; lia).
  eexists. split; [reflexivity|]. split; [|split].
  - destruct (1 <? num)%Z;
      rewrite ?length_insert, length_map; unfold range; apply length_seq.
  - intros ->. change (range (Z.to_nat 1)) with [0%nat].
    cbn [map Z.ltb Z.compare Z.sub Z.add Z.opp Z.pos_sub INR]. f_equal. ring.
  - intros Hgt i Hi.
    replace (1 <? num)%Z with true by (symmetry; apply Z.ltb_lt; lia).
    replace (0 <? num - 1)%Z with true by (symmetry; apply Z.ltb_lt; lia).
    assert (Hdiv : IZR (num - 1) <> 0) by (apply not_0_IZR; lia).
    destruct (decide (i = Z.to_nat (num - 1))) as [->|Hne].
    + rewrite list_lookup_insert_eq
        by (rewrite length_map; unfold range; rewrite length_seq; lia).
      f_equal. unfold grid_point.
      rewrite INR_IZR_INZ, Z2Nat.id by lia. field. assumption.
    + rewrite list_lookup_insert_ne by congruence.
      rewrite list_lookup_fmap. unfold range. rewrite lookup_seq_lt by assumption.
      cbn. f_equal. unfold grid_point. ring.
Qed.

(** The uniform grid starts at [start] and ends at [stop]. *)
Lemma grid_point_ends (start stop : R) (num : Z) :
  (1 < num)%Z ->
  grid_point start stop num 0 = start /\
  grid_point start stop num (Z.to_nat (num - 1)) = stop.
Proof.
  intros Hnum. assert (Hdiv : IZR (num - 1) <> 0) by (apply not_0_IZR; lia).
  unfold grid_point. split.
  - cbn [INR]. ring.
  - rewrite INR_IZR_INZ, Z2Nat.id by lia. field. assumption.
Qed.

Lemma lut_inner_spec (N i : nat) (r : scalar) :
  is_np r = true ->
  forall (rho_points : list scalar) (j : nat) (lut : list row),
    Forall (fun rho => is_np rho = true) rho_points ->
    (i * N + j + length rho_points <= length lut)%nat ->
    exists lut',
      lut_inner (Z.of_nat N) i r j rho_points lut = Ok lut' /\
      length lut' = length lut /\
      (forall (k : nat) (rho : scalar), rho_points !! k = Some rho ->
         exists v, occultation_intensity r rho = Ok v /\
           lut' !! (i * N + j + k)%nat = Some (Fin (val r), Fin (val rho), v)) /\
      (forall idx : nat,
         (idx < i * N + j)%nat \/ (i * N + j + length rho_points <= idx)%nat ->
         lut' !! idx = lut !! idx).
Proof.
  intros Hr rho_points.
  induction rho_points as [|rho rho_points IH]; intros j lut Hnp Hlen;
    cbn [lut_inner length] in *.
  - exists lut. repeat split; try reflexivity.
    intros k rho Hk. rewrite lookup_nil in Hk. discriminate.
  - apply Forall_cons in Hnp as [Hrho Hnp].
    destruct (occultation_intensity_np r rho Hr Hrho) as [v Hv].
    rewrite Hv. cbn [bind].
    replace (Z.of_nat i * Z.of_nat N + Z.of_nat j)%Z
      with (Z.of_nat (i * N + j)) by lia.
    rewrite setitem_in_range by lia. cbn [bind].
    destruct (IH (S j) (<[(i * N + j)%nat := (Fin (val r), Fin (val rho), v)]> lut))
      as (lut' & Hrun & Hlen' & Hrows & Hframe);
      [exact Hnp | rewrite length_insert; lia|].
    rewrite length_insert in Hlen'.
    exists lut'. split; [exact Hrun|]. split; [exact Hlen'|]. split.
    + intros [|k] rho' Hk; cbn in Hk.
      * injection Hk as <-. exists v. split; [assumption|].
        rewrite Hframe by lia. rewrite Nat.add_0_r.
        apply list_lookup_insert_eq. lia.
      * destruct (Hrows k rho' Hk) as (v' & Hv' & Hlook).
        exists v'. split; [assumption|].
        replace (i * N + j + S k)%nat with (i * N + S j + k)%nat by lia.
        assumption.
    + intros idx Hidx. rewrite Hframe by lia.
      apply list_lookup_insert_ne. lia.
Qed.

Lemma lut_outer_spec (N : nat) (rho_points : list scalar) :
  length rho_points = N -> Forall (fun rho => is_np rho = true) rho_points ->
  forall (r_points : list scalar) (i : nat) (lut : list row),
    Forall (fun r => is_np r = true) r_points ->
    ((i + length r_points) * N <= length lut)%nat ->
    exists lut',
      lut_outer (Z.of_nat N) i r_points rho_points lut = Ok lut' /\
      length lut' = length lut /\
      (forall (k j : nat) (r rho : scalar),
         r_points !! k = Some r -> rho_points !! j = Some rho ->
         exists v, occultation_intensity r rho = Ok v /\
           lut' !! ((i + k) * N + j)%nat = Some (Fin (val r), Fin (val rho), v)) /\
      (forall idx : nat, (idx < i * N)%nat -> lut' !! idx = lut !! idx).
Proof.
  intros HN Hrhos r_points.
  induction r_points as [|r r_points IH]; intros i lut Hnp Hlen;
    cbn [lut_outer length] in *.
  - exists lut. repeat split; try reflexivity.
    intros k j r rho Hk. rewrite lookup_nil in Hk. discriminate.
  - apply Forall_cons in Hnp as [Hr Hnp].
    destruct (lut_inner_spec N i r Hr rho_points 0%nat lut)
      as (lut1 & Hrun1 & Hlen1 & Hrow & Hframe1); [exact Hrhos | rewrite HN; lia|].
    rewrite Hrun1. cbn [bind].
    destruct (IH (S i) lut1 Hnp) as (lut' & Hrun & Hlen' & Hrows & Hframe);
      [rewrite Hlen1; lia|].
    exists lut'. split; [exact Hrun|]. split; [congruence|]. split.
    + intros [|k] j r' rho Hk Hj; cbn in Hk.
      * injection Hk as <-.
        destruct (Hrow j rho Hj) as (v & Hv & Hlook).
        exists v. split; [assumption|].
        apply lookup_lt_Some in Hj.
        rewrite Hframe by lia.
        replace ((i + 0) * N + j)%nat with (i * N + 0 + j)%nat by lia.
        assumption.
      * destruct (Hrows k j r' rho Hk Hj) as (v & Hv & Hlook).
        exists v. split; [assumption|].
        replace ((i + S k) * N + j)%nat with ((S i + k) * N + j)%nat by lia.
        assumption.
    + intros idx Hidx. rewrite Hframe by lia. apply Hframe1. lia.
Qed.

Lemma linspace_np (start stop : R) (num : Z) (l : list scalar) :
  linspace start stop num = Ok l -> Forall (fun r => is_np r = true) l.
Proof.
  unfold linspace. destruct (num <? 0)%Z; [discriminate|].
  intros [= <-]. apply Forall_fmap, Forall_true. reflexivity.
Qed.

Lemma lut_build_spec (num_points : Z) (r_max rho_min rho_max : R) :
  (0 <= num_points)%Z ->
  exists (r_points rho_points : list scalar) (lut : list row),
    linspace 0 r_max num_points = Ok r_points /\
    linspace rho_min rho_max num_points = Ok rho_points /\
    length r_points = Z.to_nat num_points /\
    length rho_points = Z.to_nat num_points /\
    lut_build num_points r_max rho_min rho_max = Ok lut /\
    length lut = (Z.to_nat num_points * Z.to_nat num_points)%nat /\
    (forall (i j : nat) (r rho : scalar),
       r_points !! i = Some r -> rho_points !! j = Some rho ->
       exists v, occultation_intensity r rho = Ok v /\
         lut !! (i * Z.to_nat num_points + j)%nat
         = Some (Fin (val r), Fin (val rho), v)).
Proof.
  intros Hnum. set (N := Z.to_nat num_points).
  destruct (linspace_samples 0 r_max num_points Hnum) as (rs & Hrs & Hlrs & _).
  destruct (linspace_samples rho_min rho_max num_points Hnum)
    as (rhos & Hrhos & Hlrhos & _).
  assert (Hlen : length (replicate (Z.to_nat (num_points ^ 2)) (Fin 0, Fin 0, Fin 0))
                 = (N * N)%nat).
  { rewrite length_replicate, Z.pow_2_r, Z2Nat.inj_mul by lia. reflexivity. }
  destruct (lut_outer_spec N (map Np rhos)
              ltac:(rewrite length_map; exact Hlrhos)
              (linspace_np rho_min rho_max num_points _ Hrhos) (map Np rs) 0%nat
              (replicate (Z.to_nat (num_points ^ 2)) (Fin 0, Fin 0, Fin 0)))
    as (lut & Hrun & Hlut & Hrows & _).
  { apply (linspace_np 0 r_max num_points). exact Hrs. }
  { rewrite Hlen, length_map, Hlrs. fold N. lia. }
  exists (map Np rs), (map Np rhos), lut.
  rewrite !length_map. repeat split; try assumption.
  - unfold lut_build. rewrite Hrs, Hrhos. cbn [bind].
    replace num_points with (Z.of_nat N) at 1 by (unfold N; lia). exact Hrun.
  - congruence.
Qed.

(** C7.  For a point count [num_points >= 0] the builder produces exactly
    [num_points^2] samples over the product of two uniform grids ([r] from
    [0] to [r_max], [rho] from [rho_min] to [rho_max]), row-major by [r]
    index then [rho] index: the record at flat index [i*num_points + j] is
    [(r_points[i], rho_points[j], occultation_intensity(r_points[i],
    rho_points[j]))]. *)
Theorem lut_build_row_major (num_points : Z) (r_max rho_min rho_max : R) :
  (0 <= num_points)%Z ->
  exists (r_points rho_points : list scalar) (lut : list row),
    linspace 0 r_max num_points = Ok r_points /\
    linspace rho_min rho_max num_points = Ok rho_points /\
    lut_build num_points r_max rho_min rho_max = Ok lut /\
    Z.of_nat (length lut) = (num_points ^ 2)%Z /\
    ((1 < num_points)%Z -> forall i : nat, (i < Z.to_nat num_points)%nat ->
       r_points !! i = Some (Np (grid_point 0 r_max num_points i)) /\
       rho_points !! i = Some (Np (grid_point rho_min rho_max num_points i))) /\
    (forall i j : nat,
       (i < Z.to_nat num_points)%nat -> (j < Z.to_nat num_points)%nat ->
       exists (r rho : scalar) (v : float),
         r_points !! i = Some r /\ rho_points !! j = Some rho /\
         occultation_intensity r rho = Ok v /\
         lut !! (i * Z.to_nat num_points + j)%nat
         = Some (Fin (val r), Fin (val rho), v)).
Proof.
  intros Hnum.
  destruct (lut_build_spec num_points r_max rho_min rho_max Hnum)
    as (rs & rhos & lut & Hrs & Hrhos & Hlrs & Hlrhos & Hrun & Hlen & Hrows).
  exists rs, rhos, lut. repeat split; try assumption.
  - rewrite Hlen, Z.pow_2_r. lia.
  - destruct (linspace_samples 0 r_max num_points Hnum) as (ys & Hys & _ & _ & Hg).
    rewrite Hys in Hrs. injection Hrs as <-.
    rewrite list_lookup_fmap, Hg by assumption. reflexivity.
  - destruct (linspace_samples rho_min rho_max num_points Hnum)
      as (ys & Hys & _ & _ & Hg).
    rewrite Hys in Hrhos. injection Hrhos as <-.
    rewrite list_lookup_fmap, Hg by assumption. reflexivity.
  - intros i j Hi Hj.
    destruct (lookup_lt_is_Some_2 rs i) as [r Hr]; [lia|].
    destruct (lookup_lt_is_Some_2 rhos j) as [rho Hrho]; [lia|].
    destruct (Hrows i j r rho Hr Hrho) as (v & Hv & Hlook).
    exists r, rho, v. auto.
Qed.

(** C8 (amended).  The builder checks nothing about the grid
    specification and has no configuration error: the one specification
    that fails is a negative point count, with the [ValueError] that
    [np.linspace] raises before any sample is computed.  Every other one,
    with zero points, a non-positive [rho] lower bound or a maximum below
    its minimum, yields a table of [num_points^2] samples. *)
Theorem lut_build_checks_nothing (num_points : Z) (r_max rho_min rho_max : R) :
  ((num_points < 0)%Z ->
   lut_build num_points r_max rho_min rho_max = Raise ValueError) /\
  ((0 <= num_points)%Z ->
   exists lut : list row,
     lut_build num_points r_max rho_min rho_max = Ok lut /\
     Z.of_nat (length lut) = (num_points ^ 2)%Z).
Proof.
  split.
  - intros Hneg. unfold lut_build, linspace.
    replace (num_points <? 0)%Z with true by (symmetry; apply Z.ltb_lt; lia).
    reflexivity.
  - intros Hnum.
    destruct (lut_build_spec num_points r_max rho_min rho_max Hnum)
      as (rs & rhos & lut & _ & _ & _ & _ & Hrun & Hlen & _).
    exists lut. split; [assumption|]. rewrite Hlen, Z.pow_2_r. lia.
Qed.


(** ** Further properties of [lommel_u] and [occultation_intensity] *)

Lemma occultation_intensity_r0 (r rho : scalar) :
  jn 0 0 = 1 -> val r = 0 -> 0 < val rho ->
  occultation_intensity r rho = Ok (Fin 1).
Proof.
  intros HJ Hr Hrho.
  rewrite (inside_compute r rho 1 0).
  - do 2 f_equal. ring.
  - apply (lommel_u_x0 0 r rho); [intros _; exact HJ | exact Hr | exact Hrho].
  - apply (lommel_u_x0 1 r rho); [discriminate | exact Hr | exact Hrho].
  - rewrite Rabs_R1. lra.
  - rewrite Rabs_R0. lra.
  - lra.
Qed.

(** X1.  At the centre of the shadow, [r = 0] with [rho > 0], the inside
    branch returns [J_0(0)^2], that is exactly [1] whatever the radius
    [rho]: the table holds the bright spot of Poisson, not darkness. *)
Theorem occultation_intensity_shadow_centre (r rho : scalar) :
  jn 0 0 = 1 -> val r = 0 -> 0 < val rho ->
  occultation_intensity r rho = Ok (Fin 1).
Proof. apply occultation_intensity_r0. Qed.

(** X2.  Without an occulter, [rho = 0] and [r > 0] with [pi*r^2] inside
    the double range, the outside branch returns exactly [1]: both Lommel
    sums vanish.  No property of [jn] is used. *)
Theorem occultation_intensity_no_occulter (r rho : scalar) :
  val rho = 0 -> 0 < val r -> PI * val r ^ 2 <= double_max ->
  occultation_intensity r rho = Ok (Fin 1).
Proof.
  intros Hrho Hr Ha. pose proof PI_RGT_0 as Hpi.
  pose proof (pow2_ge_0 (val r)) as Hsq.
  rewrite (outside_compute r rho 0 0).
  - do 2 f_equal. ring.
  - apply (lommel_u_x0 1 rho r); [discriminate | exact Hrho | exact Hr].
  - apply (lommel_u_x0 2 rho r); [discriminate | exact Hrho | exact Hr].
  - rewrite Rabs_R0. lra.
  - rewrite Rabs_R0. lra.
  - lra.
  - rewrite Hrho. nra.
Qed.

(** X3.  The exceptions of [occultation_intensity] on the whole closed
    quadrant [r >= 0], [rho >= 0].  It never raises [ValueError].  It raises
    [ZeroDivisionError] exactly when [r = rho = 0] and both are Python
    floats, and [OverflowError] exactly in the outside branch, [rho <= r],
    when the square of an argument that is a Python float leaves the double
    range.  Nothing else is raised. *)
Theorem occultation_intensity_raises_iff (r rho : scalar) (e : exn) :
  0 <= val r -> 0 <= val rho ->
  (occultation_intensity r rho = Raise e <->
   (e = ZeroDivisionError /\ is_np r = false /\ is_np rho = false /\
    val r = 0 /\ val rho = 0) \/
   (e = OverflowError /\ val rho <= val r /\
    ((is_np r = false /\ double_max < val r ^ 2) \/
     (is_np rho = false /\ double_max < val rho ^ 2)))).
Proof.
  intros Hr Hrho. pose proof double_max_ge as HM. split.
  - intros H. apply occultation_intensity_raise in H as [[Hle H]|[Hlt H]].
    + assert (Hcall : forall n, lommel_u n rho r = Raise e ->
                e = ZeroDivisionError /\ is_np r = false /\ is_np rho = false /\
                val r = 0 /\ val rho = 0).
      { intros n Hn.
        apply lommel_u_raise in Hn as [[_ Hn]|(_ & Hpy & [[-> Hz]|(_ & _ & Hn)])].
        - lra.
        - rewrite both_py_is_np in Hpy. apply negb_true_iff in Hpy.
          apply orb_false_elim in Hpy as [Hp1 Hp2].
          repeat split; (assumption || lra).
        - rewrite !Rabs_pos_eq in Hn by lra. lra. }
      destruct H as [H|[H|H]]; [left; apply (Hcall _ H) | left; apply (Hcall _ H)|].
      right. apply shadow_angle_raise in H as [-> H]. auto.
    + exfalso. assert (Hcall : forall n, lommel_u n r rho <> Raise e).
      { intros n Hn.
        apply lommel_u_raise in Hn as [[_ Hn]|(_ & _ & [[_ Hz]|(_ & _ & Hn)])].
        - lra.
        - lra.
        - rewrite !Rabs_pos_eq in Hn by lra. lra. }
      destruct H as [H|H]; apply (Hcall _ H).
  - intros [(-> & Hpr & Hprho & Hr0 & Hrho0)|(-> & Hle & Hover)].
    + unfold occultation_intensity.
      destruct (Rle_dec (val rho) (val r)) as [_|Hn]; [|lra].
      rewrite lommel_u_zero_py by (assumption || lra). reflexivity.
    + assert (Hrpos : 0 < val r).
      { destruct Hover as [[_ Hv]|[_ Hv]]; nra. }
      unfold occultation_intensity.
      destruct (Rle_dec (val rho) (val r)) as [_|Hn]; [|contradiction].
      destruct (lommel_u_returns 1 rho r) as [u1 ->];
        [assumption | right; rewrite !Rabs_pos_eq by lra; split; lra |].
      destruct (lommel_u_returns 2 rho r) as [u2 ->];
        [assumption | right; rewrite !Rabs_pos_eq by lra; split; lra |].
      cbn [bind].
      assert (Ha : shadow_angle r rho = Raise OverflowError).
      { unfold shadow_angle. destruct (square r) as [r2|e'] eqn:Hsr.
        - destruct Hover as [[Hp Hv]|[Hp Hv]].
          + rewrite square_overflow in Hsr by assumption. discriminate.
          + cbn [bind]. rewrite square_overflow by assumption. reflexivity.
        - apply square_raise in Hsr as [-> _]. reflexivity. }
      rewrite Ha. reflexivity.
Qed.

(** ** Further properties of the look-up table *)

Lemma grid_point_bounds (start stop : R) (num : Z) (i : nat) :
  (1 < num)%Z -> (i < Z.to_nat num)%nat -> start <= stop ->
  start <= grid_point start stop num i <= stop.
Proof.
  intros Hnum Hi Hle. unfold grid_point.
  assert (Hd : 0 < IZR (num - 1)) by (apply IZR_lt; lia).
  assert (Hi0 : 0 <= INR i) by apply pos_INR.
  assert (Hi1 : INR i <= IZR (num - 1)).
  { rewrite INR_IZR_INZ. apply IZR_le. lia. }
  assert (Hinv : 0 < / IZR (num - 1)) by (apply Rinv_0_lt_compat; lra).
  assert (Ht0 : 0 <= INR i * / IZR (num - 1)) by (apply Rmult_le_pos; lra).
  assert (Ht1 : INR i * / IZR (num - 1) <= 1).
  { rewrite <- (Rinv_r (IZR (num - 1))) by lra.
    apply Rmult_le_compat_r; lra. }
  replace (INR i * ((stop - start) / IZR (num - 1)))
    with ((stop - start) * (INR i * / IZR (num - 1))) by (field; lra).
  nra.
Qed.

Lemma grid_point_lt (start stop : R) (num : Z) (i j : nat) :
  (1 < num)%Z -> start < stop -> (i < j)%nat ->
  grid_point start stop num i < grid_point start stop num j.
Proof.
  intros Hnum Hlt Hij. unfold grid_point.
  assert (Hd : 0 < IZR (num - 1)) by (apply IZR_lt; lia).
  assert (Hs : 0 < (stop - start) / IZR (num - 1))
    by (apply Rdiv_lt_0_compat; lra).
  apply lt_INR in Hij. nra.
Qed.

(** What [np.linspace] holds at each index. *)
Lemma linspace_lookup (start stop : R) (num : Z) (l : list scalar)
    (i : nat) (s : scalar) :
  linspace start stop num = Ok l -> l !! i = Some s ->
  s = Np (val s) /\ (i < Z.to_nat num)%nat /\
  ((num = 1%Z /\ val s = start) \/
   ((1 < num)%Z /\ val s = grid_point start stop num i)).
Proof.
  intros Hl Hi.
  assert (Hnum : (0 <= num)%Z).
  { unfold linspace in Hl. destruct (num <? 0)%Z eqn:E; [discriminate|].
    apply Z.ltb_ge in E. assumption. }
  destruct (linspace_samples start stop num Hnum) as (ys & Hys & Hlen & H1 & Hg).
  rewrite Hys in Hl. injection Hl as <-.
  rewrite list_lookup_fmap in Hi.
  destruct (ys !! i) as [a|] eqn:Ha; [|discriminate]. injection Hi as <-.
  pose proof (lookup_lt_Some _ _ _ Ha) as Hlt. rewrite Hlen in Hlt.
  split; [reflexivity|]. split; [assumption|].
  destruct (Z.eq_dec num 1) as [->|Hne].
  - left. split; [reflexivity|]. rewrite (H1 eq_refl) in Ha.
    destruct i as [|i]; cbn in Ha; [injection Ha as <-; reflexivity | discriminate].
  - right. assert (Hgt : (1 < num)%Z) by lia. split; [assumption|].
    rewrite (Hg Hgt i Hlt) in Ha. injection Ha as <-. reflexivity.
Qed.

Lemma linspace_lookup_bounds (start stop : R) (num : Z) (l : list scalar)
    (i : nat) (s : scalar) :
  linspace start stop num = Ok l -> l !! i = Some s -> start <= stop ->
  start <= val s <= stop.
Proof.
  intros Hl Hi Hle.
  destruct (linspace_lookup start stop num l i s Hl Hi)
    as (_ & Hlt & [[_ ->]|[Hgt ->]]); [lra|].
  apply grid_point_bounds; assumption.
Qed.




(** X5.  A [rho] axis that starts at [0] puts NaN into the table without
    any error: the first record is [(0, 0, nan)]. *)
Theorem lut_build_nan_at_origin (num_points : Z) (r_max rho_max : R) :
  (1 <= num_points)%Z ->
  exists lut : list row,
    lut_build num_points r_max 0 rho_max = Ok lut /\
    lut !! 0%nat = Some (Fin 0, Fin 0, NaN).
Proof.
  intros Hnum.
  destruct (lut_build_spec num_points r_max 0 rho_max)
    as (rs & rhos & lut & Hrs & Hrhos & Hlrs & Hlrhos & Hrun & Hlen & Hrows);
    [lia|].
  exists lut. split; [assumption|].
  destruct (lookup_lt_is_Some_2 rs 0%nat) as [r Hr]; [lia|].
  destruct (lookup_lt_is_Some_2 rhos 0%nat) as [rho Hrho]; [lia|].
  destruct (Hrows _ _ r rho Hr Hrho) as (v & Hv & Hlook).
  assert (Hr0 : val r = 0 /\ is_np r = true).
  { destruct (linspace_lookup _ _ _ _ _ _ Hrs Hr) as (-> & _ & [[_ ->]|[Hgt ->]]);
      (split; [|reflexivity]); cbn [val]; [reflexivity|].
    apply grid_point_ends. assumption. }
  assert (Hrho0 : val rho = 0).
  { destruct (linspace_lookup _ _ _ _ _ _ Hrhos Hrho) as (_ & _ & [[_ ->]|[Hgt ->]]);
      [reflexivity|]. apply grid_point_ends. assumption. }
  destruct Hr0 as [Hr0 Hnp].
  rewrite occultation_intensity_zero_np in Hv
    by (assumption || (rewrite Hnp; reflexivity)).
  injection Hv as <-. rewrite Hr0, Hrho0 in Hlook. exact Hlook.
Qed.

(** X6.  With [J_0(0) = 1] and [0 < rho_min <= rho_max], the whole first
    block of the table, the [num_points] records with [r = 0], has
    intensity exactly [1]. *)
Theorem lut_build_first_block (num_points : Z) (r_max rho_min rho_max : R)
    (lut : list row) (j : nat) :
  jn 0 0 = 1 -> 0 < rho_min <= rho_max ->
  lut_build num_points r_max rho_min rho_max = Ok lut ->
  (j < Z.to_nat num_points)%nat ->
  exists b : R,
    lut !! j = Some (Fin 0, Fin b, Fin 1) /\ rho_min <= b <= rho_max.
Proof.
  intros HJ [Hrho0 Hrho] Hrun Hj.
  assert (Hnum : (0 <= num_points)%Z) by lia.
  destruct (lut_build_spec num_points r_max rho_min rho_max Hnum)
    as (rs & rhos & lut' & Hrs & Hrhos & Hlrs & Hlrhos & Hrun' & Hlen & Hrows).
  rewrite Hrun in Hrun'. injection Hrun' as <-.
  destruct (lookup_lt_is_Some_2 rs 0%nat) as [r Hr]; [lia|].
  destruct (lookup_lt_is_Some_2 rhos j) as [rho Hrhoj]; [lia|].
  destruct (Hrows _ _ r rho Hr Hrhoj) as (v & Hv & Hlook).
  assert (Hr0 : val r = 0).
  { destruct (linspace_lookup _ _ _ _ _ _ Hrs Hr) as (_ & _ & [[_ ->]|[Hgt ->]]);
      [reflexivity|]. apply grid_point_ends. assumption. }
  pose proof (linspace_lookup_bounds _ _ _ _ _ _ Hrhos Hrhoj Hrho) as Hb.
  rewrite occultation_intensity_r0 in Hv by (assumption || lra).
  injection Hv as <-.
  exists (val rho). split; [|assumption].
  cbn [Nat.mul Nat.add] in Hlook. rewrite Hlook, Hr0. reflexivity.
Qed.


(** ** Where the double range ends *)

(** A Python float whose square overflows: the outside branch raises. *)
Lemma occultation_intensity_square_overflow (r rho : scalar) :
  0 <= val rho <= val r -> is_np r = false -> double_max < val r ^ 2 ->
  occultation_intensity r rho = Raise OverflowError.
Proof.
  intros [Hrho Hle] Hpy Hv. pose proof double_max_ge as HM.
  assert (Hr : 0 < val r) by nra.
  unfold occultation_intensity.
  destruct (Rle_dec (val rho) (val r)) as [_|Hn]; [|contradiction].
  destruct (lommel_u_returns 1 rho r) as [u1 ->];
    [assumption | right; rewrite !Rabs_pos_eq by lra; split; lra |].
  destruct (lommel_u_returns 2 rho r) as [u2 ->];
    [assumption | right; rewrite !Rabs_pos_eq by lra; split; lra |].
  cbn [bind]. unfold shadow_angle.
  rewrite square_overflow by assumption. reflexivity.
Qed.

(** A numpy scalar whose square overflows: the angle is infinite, its sine
    is NaN and so is the intensity. *)
Lemma occultation_intensity_square_nan (r rho : scalar) :
  0 <= val rho <= val r -> is_np r = true -> is_np rho = true ->
  double_max < val r ^ 2 -> val rho ^ 2 <= double_max ->
  occultation_intensity r rho = Ok NaN.
Proof.
  intros [Hrho Hle] Hr Hnp Hv Hw. pose proof double_max_ge as HM.
  assert (Hpos : 0 < val r) by nra.
  unfold occultation_intensity.
  destruct (Rle_dec (val rho) (val r)) as [_|Hn]; [|contradiction].
  destruct (lommel_u_returns 1 rho r) as [u1 ->];
    [assumption | left; rewrite Hr; apply orb_true_r |].
  destruct (lommel_u_returns 2 rho r) as [u2 ->];
    [assumption | left; rewrite Hr; apply orb_true_r |].
  cbn [bind].
  assert (Ha : exists a, shadow_angle r rho = Ok a /\
                         np_sin a = NaN /\ np_cos a = NaN).
  { unfold shadow_angle. rewrite !square_np by assumption. cbn [bind].
    eexists. split; [reflexivity|].
    rewrite (np_pow_Fin (val rho))
      by (rewrite Rabs_pos_eq; [assumption | apply pow2_ge_0]).
    unfold np_pow. rewrite fpow_Fin.
    rewrite clip_overflow by (rewrite Rabs_pos_eq; [assumption | apply pow2_ge_0]).
    unfold np_add, np_mul. cbn [fadd clip fmul].
    destruct (Req_dec_T (PI / 2) 0); split; reflexivity. }
  destruct Ha as (a & -> & Hs & Hc). cbn [bind]. rewrite Hs, Hc.
  rewrite !np_mul_NaN_r, np_add_NaN_r. reflexivity.
Qed.




End Diffraction.

(** * Concrete runs

    The statements above hold for every [jn].  Below they are applied to
    the Bessel function itself. *)

Lemma bessel_J_0_0 : bessel_J 0 0 = 1.
Proof.
  unfold bessel_J.
  assert (Hle : 0 <= PI) by (left; apply PI_RGT_0).
  rewrite (RiemannInt_P18 (bessel_integrable 0 0) (RiemannInt_P14 0 PI 1) Hle).
  - rewrite RiemannInt_P15. field. apply PI_neq0.
  - intros tau _. unfold bessel_integrand, fct_cte. cbn [INR].
    replace (0 * tau - 0 * sin tau) with 0 by ring. apply cos_0.
Qed.

(** [|J_n(x)| <= 1], from the integral. *)
Lemma bessel_J_bounded : jn_bounded bessel_J.
Proof.
  intros n x. unfold bessel_J.
  pose proof PI_RGT_0 as Hpi.
  assert (Hle : 0 <= PI) by lra.
  pose proof (RiemannInt_P16 (bessel_integrable n x)) as Habs.
  pose proof (RiemannInt_P17 (bessel_integrable n x) Habs Hle) as H1.
  pose proof (RiemannInt_P19 Habs (RiemannInt_P14 0 PI 1) Hle) as H2.
  rewrite RiemannInt_P15 in H2.
  assert (H3 : RiemannInt Habs <= 1 * (PI - 0)).
  { apply H2. intros tau _. unfold bessel_integrand, fct_cte.
    apply Rabs_le. pose proof (COS_bound (INR n * tau - x * sin tau)). lra. }
  rewrite Rabs_mult, Rabs_inv, (Rabs_pos_eq PI) by lra.
  apply Rle_trans with (/ PI * PI).
  - apply Rmult_le_compat_l; [left; apply Rinv_0_lt_compat; lra | lra].
  - rewrite Rinv_l by lra. lra.
Qed.

(** Small arguments are far inside the double range. *)
Lemma small_range (c : R) : 0 <= c <= 1000 -> PI * c <= double_max.
Proof.
  intros Hc. pose proof PI_4. pose proof PI_RGT_0. pose proof double_max_ge. nra.
Qed.

Lemma double_max_lt_pow10_310 : double_max < (10 ^ 155) ^ 2.
Proof.
  rewrite <- pow_mult, pow_IZR. unfold double_max.
  apply IZR_lt, Z.ltb_lt. vm_compute. reflexivity.
Qed.



(** Outside the shadow at [r = 2], [rho = 1]. *)
Lemma occultation_intensity_branches_witness :
  exists u1 u2 : R,
    lommel_u bessel_J 1 (Np 1) (Np 2) = Ok (Fin u1) /\
    lommel_u bessel_J 2 (Np 1) (Np 2) = Ok (Fin u2) /\
    occultation_intensity bessel_J (Np 2) (Np 1) =
    Ok (Fin (1 + u1 ^ 2 + u2 ^ 2
             - 2 * u1 * sin (PI / 2 * (2 ^ 2 + 1 ^ 2))
             + 2 * u2 * cos (PI / 2 * (2 ^ 2 + 1 ^ 2)))).
Proof.
  apply (occultation_intensity_branches bessel_J (Np 2) (Np 1));
    [apply bessel_J_bounded | cbn; lra | cbn; lra
    | cbn [val]; apply small_range; lra | cbn; lra].
Defined.

(** C1, as stated, fails where [r**2] leaves the double range: at the
    Python floats [r = 1e155], [rho = 1], with [r >= 0], [rho > 0] and
    [r >= rho], the call raises [OverflowError] and returns no value. *)
Lemma occultation_intensity_overflows_python :
  0 <= val (Py (10 ^ 155)) /\ 0 < val (Py 1) /\
  val (Py 1) <= val (Py (10 ^ 155)) /\
  occultation_intensity bessel_J (Py (10 ^ 155)) (Py 1) = Raise OverflowError.
Proof.
  assert (H1 : 1 <= 10 ^ 155) by (apply pow_R1_Rle; lra).
  cbn [val]. repeat split; try lra.
  apply occultation_intensity_square_overflow;
    [cbn [val]; lra | reflexivity | apply double_max_lt_pow10_310].
Qed.





Lemma occultation_intensity_no_domain_error_witness :
  occultation_intensity bessel_J (Py 0) (Py 1) <> Raise ValueError.
Proof.
  apply (occultation_intensity_no_domain_error bessel_J (Py 0) (Py 1)); cbn; lra.
Defined.

Lemma occultation_intensity_nonneg_witness :
  exists v : R, occultation_intensity bessel_J (Np 3) (Np 1) = Ok (Fin v) /\ 0 <= v.
Proof.
  apply (occultation_intensity_nonneg bessel_J (Np 3) (Np 1));
    [apply bessel_J_bounded | cbn; lra | cbn; lra
    | cbn [val]; apply small_range; lra].
Defined.

(** C5, as stated, fails where [r**2] leaves the double range: at the
    numpy scalars [r = 1e155], [rho = 1] the angle is infinite, its sine is
    NaN and the call returns NaN, no value [>= 0]. *)
Lemma occultation_intensity_overflows_numpy :
  0 <= val (Np (10 ^ 155)) /\ 0 < val (Np 1) /\
  occultation_intensity bessel_J (Np (10 ^ 155)) (Np 1) = Ok NaN /\
  ~ (exists v : R,
       occultation_intensity bessel_J (Np (10 ^ 155)) (Np 1) = Ok (Fin v) /\
       0 <= v).
Proof.
  assert (H1 : 1 <= 10 ^ 155) by (apply pow_R1_Rle; lra).
  assert (Hnan : occultation_intensity bessel_J (Np (10 ^ 155)) (Np 1) = Ok NaN).
  { apply occultation_intensity_square_nan; cbn [val is_np];
      [lra | reflexivity | reflexivity | apply double_max_lt_pow10_310 |].
    pose proof double_max_ge. lra. }
  cbn [val]. repeat split; try lra; [exact Hnan|].
  intros (v & Hv & _). rewrite Hnan in Hv. discriminate.
Qed.


Lemma lommel_u_zero_zero_witness :
  lommel_u bessel_J 1 (Np 0) (Np 0) = Ok NaN /\
  occultation_intensity bessel_J (Np 0) (Np 0) = Ok NaN.
Proof.
  apply (lommel_u_zero_zero bessel_J 1 (Np 0) (Np 0)); reflexivity.
Defined.

(** C10, as stated, fails at two Python zeros: the call does not return
    NaN, it raises. *)
Lemma lommel_u_python_zero_not_nan :
  val (Py 0) = 0 /\ lommel_u bessel_J 0 (Py 0) (Py 0) <> Ok NaN.
Proof.
  split; [reflexivity|].
  rewrite lommel_u_zero_py by (reflexivity || cbn; lra). discriminate.
Qed.

Lemma lut_build_row_major_witness :
  exists lut : list row,
    lut_build bessel_J 2 20 (1 / 100) 20 = Ok lut /\
    Z.of_nat (length lut) = (2 ^ 2)%Z.
Proof.
  destruct (lut_build_row_major bessel_J 2 20 (1 / 100) 20)
    as (r_points & rho_points & lut & _ & _ & Hrun & Hlen & _); [lia|].
  exists lut. split; assumption.
Defined.

Lemma lut_build_checks_nothing_witness :
  lut_build bessel_J (-1) 20 (1 / 100) 20 = Raise ValueError /\
  exists lut : list row,
    lut_build bessel_J 3 20 0 20 = Ok lut /\ Z.of_nat (length lut) = (3 ^ 2)%Z.
Proof.
  split.
  - apply (lut_build_checks_nothing bessel_J (-1) 20 (1 / 100) 20). lia.
  - apply (lut_build_checks_nothing bessel_J 3 20 0 20). lia.
Defined.

(** C8, as stated, fails: a zero point count gives the empty table, and a
    negative [rho] lower bound with [rho_max] below it gives a table of
    four samples; neither raises. *)
Lemma lut_build_accepts_invalid_grids :
  lut_build bessel_J 0 20 (1 / 100) 20 = Ok [] /\
  exists lut : list row,
    lut_build bessel_J 2 20 (-1) (-2) = Ok lut /\ length lut = 4%nat.
Proof.
  split; [reflexivity|].
  destruct (lut_build_spec bessel_J 2 20 (-1) (-2))
    as (_ & _ & lut & _ & _ & _ & _ & Hrun & Hlen & _); [lia|].
  exists lut. split; assumption.
Qed.

(** Concrete runs of the further properties. *)

Lemma occultation_intensity_shadow_centre_witness :
  occultation_intensity bessel_J (Np 0) (Np 20) = Ok (Fin 1).
Proof.
  apply (occultation_intensity_shadow_centre bessel_J (Np 0) (Np 20));
    [apply bessel_J_0_0 | reflexivity | cbn; lra].
Defined.

Lemma occultation_intensity_no_occulter_witness :
  occultation_intensity bessel_J (Py 3) (Py 0) = Ok (Fin 1).
Proof.
  apply (occultation_intensity_no_occulter bessel_J (Py 3) (Py 0));
    [reflexivity | cbn; lra | cbn [val]; apply small_range; lra].
Defined.

Lemma occultation_intensity_raises_iff_witness :
  occultation_intensity bessel_J (Py 0) (Py 0) = Raise ZeroDivisionError /\
  occultation_intensity bessel_J (Py (10 ^ 155)) (Np 1) = Raise OverflowError.
Proof.
  assert (H1 : 1 <= 10 ^ 155) by (apply pow_R1_Rle; lra).
  split.
  - apply (occultation_intensity_raises_iff bessel_J (Py 0) (Py 0));
      [cbn; lra | cbn; lra | left; repeat split].
  - apply (occultation_intensity_raises_iff bessel_J (Py (10 ^ 155)) (Np 1));
      cbn [val]; [lra | lra |].
    right. split; [reflexivity|]. split; [lra|]. left.
    split; [reflexivity | apply double_max_lt_pow10_310].
Defined.


Lemma lut_build_nan_at_origin_witness :
  exists lut : list row,
    lut_build bessel_J 400 20 0 20 = Ok lut /\
    lut !! 0%nat = Some (Fin 0, Fin 0, NaN).
Proof.
  apply (lut_build_nan_at_origin bessel_J 400 20 20). lia.
Defined.

Lemma lut_build_first_block_witness :
  exists (lut : list row) (b : R),
    lut_build bessel_J 2 20 (1 / 100) 20 = Ok lut /\
    lut !! 1%nat = Some (Fin 0, Fin b, Fin 1) /\ 1 / 100 <= b <= 20.
Proof.
  destruct (lut_build_spec bessel_J 2 20 (1 / 100) 20)
    as (_ & _ & lut & _ & _ & _ & _ & Hrun & _); [lia|].
  destruct (lut_build_first_block bessel_J 2 20 (1 / 100) 20 lut 1)
    as (b & Hb & Hrange);
    [apply bessel_J_0_0 | lra | exact Hrun | cbn; lia |].
  exists lut, b. auto.
Defined.


(** * The animation *)

Import Animation.

Ltac update_step H :=
  cbn [set_patch set_position set_xdata set_ydata patches texts lines modify
       lookup list_lookup mbind option_bind set_center set_width set_height
       set_xy insert list_insert xdata ydata label] in H;
  try discriminate H.

(** From [update x y s = Some s'], the shape the lists of [s] must have and
    [s'] spelled out: the lists are opened in the order [update] indexes
    them, and every list too short or patch of the wrong kind ends in
    [None]. *)
Ltac update_inv H :=
  match type of H with
  | update _ _ ?s = Some _ =>
      let ls := fresh "ls" in let ts := fresh "ts" in let ps := fresh "ps" in
      destruct s as [ls ts ps]; unfold update in H;
      destruct ps as [|? [|? [|[? ?|? ? ?] ps]]]; update_step H;
      destruct ts as [|? [|? ts]]; update_step H;
      destruct ls as [|? [|? [|? ls]]]; update_step H;
      destruct ls as [|? [|? ls]]; update_step H;
      destruct ts as [|? [|? ts]]; update_step H;
      destruct ls as [|? [|? ls]]; update_step H;
      destruct ls as [|? [|? ls]]; update_step H;
      destruct ts as [|? [|? ts]]; update_step H;
      destruct ps as [|[? ?|? ? ?] ps]; update_step H;
      destruct ps as [|[? ?|? ? ?] ps]; update_step H;
      destruct ls as [|? ls]; update_step H;
      destruct ts as [|? ts]; update_step H;
      injection H as <-
  end.

Ltac update_run :=
  unfold update;
  cbn [set_patch set_position set_xdata set_ydata patches texts lines modify
       lookup list_lookup mbind option_bind set_center set_width set_height
       set_xy insert list_insert xdata ydata label].

Lemma fresnel_scale_in_range (x : R) :
  5 / 2 <= x -> fresnel_scale_at x = Fin (sqrt (x - 5 / 2) / 2).
Proof.
  intros Hx. unfold fresnel_scale_at, fsqrt, earth_position, earth_radius.
  cbn [fst]. replace (x - 2 - 1 / 2) with (x - 5 / 2) by lra.
  destruct (Rlt_dec (x - 5 / 2) 0) as [Hneg|_]; [lra|].
  unfold fdivr, fdiv. destruct (Req_dec_T 2 0); [lra | reflexivity].
Qed.

Lemma fresnel_scale_below_range (x : R) :
  x < 5 / 2 -> fresnel_scale_at x = NaN.
Proof.
  intros Hx. unfold fresnel_scale_at, fsqrt, earth_position, earth_radius.
  cbn [fst]. destruct (Rlt_dec (x - 2 - 1 / 2) 0) as [_|Hn]; [reflexivity | lra].
Qed.

Lemma fdivr_Fin (u v : R) : v <> 0 -> fdivr (Fin u) v = Fin (u / v).
Proof.
  intros Hv. unfold fdivr, fdiv.
  destruct (Req_dec_T v 0); [contradiction | reflexivity].
Qed.

Lemma update_initial_scene (x y : R) : is_Some (update x y initial_scene).
Proof. unfold initial_scene. update_run. eexists. reflexivity. Qed.

(** X8.  What [update] leaves alone.  A call that returns keeps the number
    of lines, texts and patches and every label, and it does not touch the
    two lines of the star's cone, the two ruler ticks at Earth (lines 0, 1,
    3, 7), the labels of Earth and the star (texts 0, 2) nor the discs of
    Earth and the star (patches 0, 1). *)
Theorem update_leaves_the_rest (x y : R) (s s' : scene) :
  update x y s = Some s' ->
  length (lines s') = length (lines s) /\
  length (texts s') = length (texts s) /\
  length (patches s') = length (patches s) /\
  label <$> texts s' = label <$> texts s /\
  (forall i : nat, i ∈ [0; 1; 3; 7]%nat -> lines s' !! i = lines s !! i) /\
  (forall i : nat, i ∈ [0; 2]%nat -> texts s' !! i = texts s !! i) /\
  (forall i : nat, i ∈ [0; 1]%nat -> patches s' !! i = patches s !! i).
Proof.
  intros H. update_inv H. cbn [lines texts patches length fmap list_fmap label].
  repeat split; intros i Hi; repeat (apply elem_of_cons in Hi as [->|Hi]);
    try reflexivity; apply elem_of_nil in Hi; contradiction.
Qed.

(** X9.  [update] forgets the past: on a scene that an earlier call
    returned, a call gives what it gives on the scene before that call, and
    it returns.  The picture depends on the current slider values alone, and
    once one call has returned no later one raises. *)
Theorem update_forgets_the_past (x1 y1 x y : R) (s s1 : scene) :
  update x1 y1 s = Some s1 ->
  update x y s1 = update x y s /\ is_Some (update x y s1).
Proof.
  intros H. update_inv H. split.
  - update_run. reflexivity.
  - update_run. eexists. reflexivity.
Qed.

(** X10.  The shadows after [update], for a slider value [x >= 2.5] (the
    minimum of the slider, Earth's limb).  With [f = sqrt(x - 2.5) / 2]: the
    body sits at [(x, y)] with its radius unchanged; the outer shadow runs
    from Earth's limb to [x], is [f] high and centred on [y]; the geometric
    shadow has the same extent and corner [y - 0.2], its height unchanged;
    and the Fresnel bar stands at [x] from the bottom to the top of the
    outer shadow. *)
Theorem update_shadow_geometry (x y : R) (s s' : scene) :
  5 / 2 <= x -> update x y s = Some s' ->
  let f := sqrt (x - 5 / 2) / 2 in
  (exists c r, patches s !! 2%nat = Some (Circle c r) /\
     patches s' !! 2%nat = Some (Circle (Fin x, Fin y) r)) /\
  patches s' !! 3%nat
    = Some (Rectangle (Fin (5 / 2), Fin (y - f / 2)) (Fin (x - 5 / 2)) (Fin f)) /\
  (exists xy w h, patches s !! 4%nat = Some (Rectangle xy w h) /\
     patches s' !! 4%nat
     = Some (Rectangle (Fin (5 / 2), Fin (y - 1 / 5)) (Fin (x - 5 / 2)) h)) /\
  (exists l, lines s !! 5%nat = Some l /\
     lines s' !! 5%nat
     = Some (Line [Fin x; Fin x] [Fin (y - f / 2); Fin (y + f / 2)])).
Proof.
  intros Hx H f. update_inv H.
  rewrite (fresnel_scale_in_range x Hx). fold f.
  cbn [fneg]. rewrite !fdivr_Fin by lra.
  cbn [lines texts patches lookup list_lookup fadd].
  unfold earth_position, earth_radius, TNO_radius. cbn [fst snd].
  split; [|split; [|split]].
  - do 2 eexists. split; reflexivity.
  - do 2 f_equal; [f_equal|]; f_equal; lra.
  - do 3 eexists. split; [reflexivity|].
    do 2 f_equal; [f_equal|]; f_equal; lra.
  - eexists. split; [reflexivity|].
    do 3 f_equal; [|f_equal]; f_equal; lra.
Qed.

(** X11.  Below the slider's minimum, [x < 2.5], [update] does not raise:
    the square root is NaN, and NaN is stored as the height and corner of
    the outer shadow, as both ends of the Fresnel bar and in the position of
    its label, next to a negative width. *)
Theorem update_below_range (x y : R) (s s' : scene) :
  x < 5 / 2 -> update x y s = Some s' ->
  patches s' !! 3%nat
    = Some (Rectangle (Fin (5 / 2), NaN) (Fin (x - 5 / 2)) NaN) /\
  x - 5 / 2 < 0 /\
  (exists l, lines s !! 5%nat = Some l /\
     lines s' !! 5%nat = Some (Line [Fin x; Fin x] [NaN; NaN])) /\
  (exists t, texts s !! 4%nat = Some t /\
     texts s' !! 4%nat = Some (Text (Fin x, NaN) (label t))).
Proof.
  intros Hx H. update_inv H.
  rewrite (fresnel_scale_below_range x Hx).
  cbn [fneg fdivr lines texts patches lookup list_lookup fadd].
  unfold earth_position, earth_radius. cbn [fst snd].
  split; [|split; [|split]].
  - do 2 f_equal; [f_equal|]; f_equal; lra.
  - lra.
  - eexists. split; reflexivity.
  - eexists. split; reflexivity.
Qed.

(** X12.  [update] agrees with the first drawing: called with the sliders
    at their initial values it returns the scene as the module-level
    statements drew it, in exact arithmetic, but for line 6, the ruler of
    [r], whose two ordinates it lists in the opposite order. *)
Theorem update_at_initial_values :
  update x_slider_init y_slider_init initial_scene
  = Some (Scene (alter (fun l => Line (xdata l) (reverse (ydata l))) 6%nat
                       (lines initial_scene))
                (texts initial_scene) (patches initial_scene)).
Proof.
  unfold initial_scene. update_run.
  cbn [alter list_alter reverse rev_append xdata ydata].
  assert (Hf : fresnel_scale_at x_slider_init = Fin (sqrt (8 - 5 / 2) / 2)).
  { apply fresnel_scale_in_range. unfold x_slider_init, TNO_initial_position.
    cbn [fst]. lra. }
  rewrite !Hf. cbn [fneg]. rewrite !fdivr_Fin by lra. cbn [fadd].
  unfold x_slider_init, y_slider_init, TNO_initial_position, earth_position,
    earth_radius, TNO_radius, star_position, star_radius. cbn [fst snd].
  replace ((8 + 2 + 1 / 2) / 2) with ((2 + 1 / 2 + 8) / 2) by lra.
  replace (2 + 2 / 5 + sqrt (8 - 5 / 2) / 2 / 2)
    with (2 + sqrt (8 - 5 / 2) / 2 / 2 + 2 / 5) by lra.
  reflexivity.
Qed.

Lemma update_leaves_the_rest_witness :
  exists s' : scene,
    update 10 1 initial_scene = Some s' /\
    length (lines s') = length (lines initial_scene) /\
    label <$> texts s' = label <$> texts initial_scene.
Proof.
  destruct (update_initial_scene 10 1) as [s' H].
  exists s'. split; [exact H|].
  destruct (update_leaves_the_rest 10 1 initial_scene s' H)
    as (Hl & _ & _ & Hlab & _).
  split; assumption.
Defined.

Lemma update_forgets_the_past_witness :
  exists s1 : scene,
    update 10 1 initial_scene = Some s1 /\
    update 8 2 s1 = update 8 2 initial_scene.
Proof.
  destruct (update_initial_scene 10 1) as [s1 H].
  exists s1. split; [exact H|].
  apply (update_forgets_the_past 10 1 8 2 initial_scene s1 H).
Defined.

Lemma update_shadow_geometry_witness :
  exists s' : scene,
    update 10 1 initial_scene = Some s' /\
    patches s' !! 3%nat
    = Some (Rectangle (Fin (5 / 2), Fin (1 - sqrt (10 - 5 / 2) / 2 / 2))
                      (Fin (10 - 5 / 2)) (Fin (sqrt (10 - 5 / 2) / 2))).
Proof.
  destruct (update_initial_scene 10 1) as [s' H].
  exists s'. split; [exact H|].
  apply (update_shadow_geometry 10 1 initial_scene s'); [lra | exact H].
Defined.

Lemma update_below_range_witness :
  exists s' : scene,
    update 1 0 initial_scene = Some s' /\
    patches s' !! 3%nat
    = Some (Rectangle (Fin (5 / 2), NaN) (Fin (1 - 5 / 2)) NaN).
Proof.
  destruct (update_initial_scene 1 0) as [s' H].
  exists s'. split; [exact H|].
  apply (update_below_range 1 0 initial_scene s'); [lra | exact H].
Defined.
